(** * MINRES: the low-level kernel [internal::minres] and the [MINRES] wrapper

    A shallow embedding of [Eigen/src/IterativeLinearSolvers/MINRES.h].

    The kernel is a C++ template over the scalar type, the matrix type and
    the preconditioner type.  The embedding keeps that shape: the scalar
    type is a type class ([RealScalar]), the matrix and the preconditioner
    are records of functions, and the kernel is written once, over all of
    them.  Two instances are used below: IEEE binary64 ([double], through
    the kernel's primitive floats), on which the kernel can be run, and
    the real numbers, the exact arithmetic the algorithm is designed in.

    Every application of the matrix and every preconditioner solve is
    recorded in a trace (a writer monad), so that statements about how
    often the kernel calls its collaborators are statements about the
    kernel itself. *)

From Stdlib Require Import ZArith List Bool Lia.
From Stdlib Require Import Floats.
From Stdlib Require Import Reals Lra.
Import ListNotations.

Set Implicit Arguments.

(** ** Scalars *)

(** [typename Dest::RealScalar]: the operations the kernel uses on it. *)
Class RealScalar (S : Type) : Type := {
  s_zero : S;                  (* RealScalar(0.0) *)
  s_one : S;                   (* RealScalar(1.0) *)
  s_add : S -> S -> S;
  s_sub : S -> S -> S;
  s_mul : S -> S -> S;
  s_div : S -> S -> S;
  s_opp : S -> S;              (* unary minus *)
  s_sqrt : S -> S;             (* sqrt, std::sqrt *)
  s_fabs : S -> S;             (* std::fabs *)
  s_lt : S -> S -> bool;       (* operator< *)
  s_le : S -> S -> bool        (* operator<= *)
}.

Declare Scope scalar_scope.
Delimit Scope scalar_scope with sc.
Notation "x + y" := (s_add x y) : scalar_scope.
Notation "x - y" := (s_sub x y) : scalar_scope.
Notation "x * y" := (s_mul x y) : scalar_scope.
Notation "x / y" := (s_div x y) : scalar_scope.
Notation "- x" := (s_opp x) : scalar_scope.
Notation "x <? y" := (s_lt x y) : scalar_scope.
Notation "x <=? y" := (s_le x y) : scalar_scope.

(** [double]. *)
#[export] Instance double_scalar : RealScalar float := {
  s_zero := 0%float;
  s_one := 1%float;
  s_add := PrimFloat.add;
  s_sub := PrimFloat.sub;
  s_mul := PrimFloat.mul;
  s_div := PrimFloat.div;
  s_opp := PrimFloat.opp;
  s_sqrt := PrimFloat.sqrt;
  s_fabs := PrimFloat.abs;
  s_lt := PrimFloat.ltb;
  s_le := PrimFloat.leb
}.

(** Exact real arithmetic. *)
Definition Rltb (a b : R) : bool := if Rlt_dec a b then true else false.
Definition Rleb (a b : R) : bool := if Rle_dec a b then true else false.

#[export] Instance real_scalar : RealScalar R := {
  s_zero := 0%R;
  s_one := 1%R;
  s_add := Rplus;
  s_sub := Rminus;
  s_mul := Rmult;
  s_div := Rdiv;
  s_opp := Ropp;
  s_sqrt := sqrt;
  s_fabs := Rabs;
  s_lt := Rltb;
  s_le := Rleb
}.

(** ** Dense vectors *)

Section Vectors.
Context {S : Type} `{RealScalar S}.
Local Open Scope scalar_scope.

(** Modelled from the spec: [Matrix<Scalar,Dynamic,1>] and the dense
    expressions the kernel uses on it ([Zero], [setOnes], sum, difference,
    product and quotient by a scalar, [dot], [squaredNorm]) are declared in
    Eigen's core, outside this file.  A vector of length N is the list of
    its N coefficients, the operations are coefficient-wise, and the
    inner product and the squared norm add the products from the first
    coefficient to the last. *)
Definition VectorType : Type := list S.

(* VectorType::Zero(N) *)
Definition Zero (N : nat) : VectorType := repeat s_zero N.

(* x.setOnes(): every coefficient becomes one, the size is kept *)
Definition setOnes (x : VectorType) : VectorType := map (fun _ => s_one) x.

Fixpoint zipWith (f : S -> S -> S) (u v : VectorType) : VectorType :=
  match u, v with
  | a :: u', b :: v' => f a b :: zipWith f u' v'
  | _, _ => []
  end.

Definition vadd (u v : VectorType) : VectorType := zipWith s_add u v.
Definition vsub (u v : VectorType) : VectorType := zipWith s_sub u v.
(* a * v *)
Definition vscale (a : S) (v : VectorType) : VectorType := map (fun b => a * b) v.
(* v / a *)
Definition vdiv (v : VectorType) (a : S) : VectorType := map (fun b => b / a) v.

(* The sum of the coefficients, taken from the first to the last; zero for
   an empty vector *)
Definition sum (l : VectorType) : S :=
  match l with
  | [] => s_zero
  | a :: l' => fold_left s_add l' a
  end.

(* u.dot(v) *)
Definition dot (u v : VectorType) : S := sum (zipWith s_mul u v).

(* v.squaredNorm() *)
Definition squaredNorm (v : VectorType) : S := sum (map (fun a => a * a) v).

(* std::pow(a, 2) and std::pow(a, 0.5) *)
Definition pow_2 (a : S) : S := a * a.
Definition pow_half (a : S) : S := s_sqrt a.
End Vectors.

Arguments VectorType S : clear implicits.

(** ** The collaborators and the trace of their calls *)

(** [MatrixType], a template parameter of the kernel: its number of columns
    ([mat.cols()]) and its product with a vector ([mat*v]). *)
Record MatrixType (S : Type) : Type := {
  cols : nat;
  times : VectorType S -> VectorType S
}.

(** [Preconditioner], a template parameter of the kernel:
    [precond.solve(v)]. *)
Record Preconditioner (S : Type) : Type := {
  solve : VectorType S -> VectorType S
}.

Inductive Event (S : Type) : Type :=
| MinresCall (x : VectorType S)     (* minres was entered with this x *)
| MatTimes (v : VectorType S)       (* mat * v was evaluated *)
| PrecondSolve (v : VectorType S)   (* precond.solve(v) was evaluated *)
| LoopBody (n : Z).                 (* the loop body was entered with this n *)

Arguments LoopBody {S} n.

Definition is_MatTimes {S} (e : Event S) : bool :=
  match e with MatTimes _ => true | _ => false end.
Definition is_PrecondSolve {S} (e : Event S) : bool :=
  match e with PrecondSolve _ => true | _ => false end.
Definition is_LoopBody {S} (e : Event S) : bool :=
  match e with LoopBody _ => true | _ => false end.

Definition count {S} (f : Event S -> bool) (tr : list (Event S)) : nat :=
  length (filter f tr).

(** A computation returns its value and the events it caused, in order. *)
Definition Traced (S A : Type) : Type := A * list (Event S).

Definition ret {S A} (a : A) : Traced S A := (a, []).
Definition bind {S A B} (m : Traced S A) (k : A -> Traced S B) : Traced S B :=
  let (a, t1) := m in let (b, t2) := k a in (b, t1 ++ t2).
Definition tell {S} (e : Event S) : Traced S unit := (tt, [e]).
Definition value {S A} (m : Traced S A) : A := fst m.
Definition trace {S A} (m : Traced S A) : list (Event S) := snd m.

Notation "x <- m ;; k" := (bind m (fun x => k))
  (at level 61, m at next level, right associativity).
Notation "m ;;; k" := (bind m (fun _ => k))
  (at level 61, right associativity).

(** ** The kernel: [internal::minres] *)

(** The locals the kernel declares without an initial value: [VectorType
    v_old(N)], [w(N)] and [p(N)] allocate [N] coefficients and leave them
    as they are in memory, [RealScalar beta] and [RealScalar residualNorm2]
    are plain uninitialised scalars.  What they hold when they are first
    read is not decided by the program; it is an input of the model. *)
Record Indeterminate (S : Type) : Type := {
  u_v_old : VectorType S;
  u_w : VectorType S;
  u_p : VectorType S;
  u_beta : S;
  u_residualNorm2 : S
}.

(** The variables that live across iterations. *)
Record LoopState (S : Type) : Type := {
  x : VectorType S;
  v_old : VectorType S;
  v : VectorType S;
  v_new : VectorType S;
  w : VectorType S;
  w_new : VectorType S;
  beta : S;
  beta_new : S;
  c : S;
  c_old : S;
  s : S;
  s_old : S;
  p_oold : VectorType S;
  p_old : VectorType S;
  p : VectorType S;
  norm_rMR : S;
  norm_r0 : S;
  eta : S;
  residualNorm2 : S;
  n : Z
}.

(** What one pass of "Preconditioned Lanczos" computes (lines 100-110). *)
Record Lanczos (S : Type) : Type := {
  l_beta : S;
  l_v_old : VectorType S;
  l_v : VectorType S;
  l_w : VectorType S;
  l_alpha : S;
  l_v_new : VectorType S;
  l_w_new : VectorType S;
  l_beta_new : S
}.

(** What "Compute new Givens rotation" computes (lines 137-146). *)
Record Givens (S : Type) : Type := {
  g_r2 : S;
  g_r3 : S;
  g_r1_hat : S;
  g_r1 : S;
  g_c_old : S;
  g_s_old : S;
  g_c : S;
  g_s : S
}.

(** The values the caller gets back: [x], [iters] and [tol_error]. *)
Record Result (S : Type) : Type := {
  x_out : VectorType S;
  iters_out : Z;
  tol_error_out : S
}.

Section Kernel.
Context {S : Type} `{RealScalar S}.
Local Open Scope scalar_scope.

Variable mat : MatrixType S.
Variable rhs : VectorType S.
Variable precond : Preconditioner S.

Definition mat_times (u : VectorType S) : Traced S (VectorType S) :=
  (times mat u, [MatTimes u]).
Definition precond_solve (u : VectorType S) : Traced S (VectorType S) :=
  (solve precond u, [PrecondSolve u]).

(* const RealScalar rhsNorm2(rhs.squaredNorm()); *)
Definition rhsNorm2 : S := squaredNorm rhs.
(* const RealScalar threshold2(tol_error*tol_error*rhsNorm2); *)
Definition threshold2 (tol_error : S) : S := tol_error * tol_error * rhsNorm2.

(** Lines 41-86: everything before the loop. *)
Definition minres_init (junk : Indeterminate S) (x0 : VectorType S)
  : Traced S (LoopState S) :=
  let N := cols mat in
  Ax <- mat_times x0 ;;
  let residual := vsub rhs Ax in
  let v_old := u_v_old junk in
  let v := Zero N in
  let v_new := residual in
  let w := u_w junk in
  w_new <- precond_solve v_new ;;
  let beta := u_beta junk in
  let beta_new := s_sqrt (dot v_new w_new) in
  let v_new := vdiv v_new beta_new in
  let w_new := vdiv w_new beta_new in
  let p_oold := Zero N in
  let p_old := p_oold in
  let p := u_p junk in
  ret {| x := x0; v_old := v_old; v := v; v_new := v_new; w := w; w_new := w_new;
         beta := beta; beta_new := beta_new;
         c := s_one; c_old := s_one; s := s_zero; s_old := s_zero;
         p_oold := p_oold; p_old := p_old; p := p;
         norm_rMR := beta; norm_r0 := beta;
         eta := s_one;
         residualNorm2 := u_residualNorm2 junk;
         n := 0 |}.

(** Lines 100-110. *)
Definition lanczos (st : LoopState S) : Traced S (Lanczos S) :=
  let beta := beta_new st in
  let v_old := v st in
  let v := v_new st in
  let w := w_new st in
  Aw <- mat_times w ;;
  let v_new := vsub Aw (vscale beta v_old) in
  let alpha := dot v_new w in
  let v_new := vsub v_new (vscale alpha v) in
  w_new <- precond_solve v_new ;;
  let beta_new := s_sqrt (dot v_new w_new) in
  let v_new := vdiv v_new beta_new in
  let w_new := vdiv w_new beta_new in
  ret {| l_beta := beta; l_v_old := v_old; l_v := v; l_w := w; l_alpha := alpha;
         l_v_new := v_new; l_w_new := w_new; l_beta_new := beta_new |}.

(** Lines 137-146; [c], [c_old], [s], [s_old] are the previous iteration's. *)
Definition givens (c c_old s s_old alpha beta beta_new : S) : Givens S :=
  let r2 := s * alpha + c * c_old * beta in
  let r3 := s_old * beta in
  let r1_hat := c * alpha - c_old * s * beta in
  let r1 := pow_half (pow_2 r1_hat + pow_2 beta_new) in
  {| g_r2 := r2; g_r3 := r3; g_r1_hat := r1_hat; g_r1 := r1;
     g_c_old := c;
     g_s_old := s;
     g_c := r1_hat / r1;
     g_s := beta / r1 |}.

(** Lines 88-164: one pass through the loop body.  The boolean is [true]
    when the pass left the loop through [break]. *)
Definition minres_body (tol_error : S) (st : LoopState S)
  : Traced S (LoopState S * bool) :=
  tell (LoopBody (n st)) ;;;
  l <- lanczos st ;;
  let g := givens (c st) (c_old st) (s st) (s_old st)
                  (l_alpha l) (l_beta l) (l_beta_new l) in
  let p_oold := p_old st in
  let p_old := p st in
  let p := vdiv (vsub (vsub (l_w l) (vscale (g_r2 g) p_old)) (vscale (g_r3 g) p_oold))
                (g_r1 g) in
  let x := vadd (x st) (vscale (g_c g * eta st) p) in
  let norm_rMR := norm_rMR st * s_fabs (g_s g) in
  Ax <- mat_times x ;;
  let residualNorm2 := squaredNorm (vsub Ax rhs) in
  let st' := {| x := x; v_old := l_v_old l; v := l_v l; v_new := l_v_new l;
                w := l_w l; w_new := l_w_new l;
                beta := l_beta l; beta_new := l_beta_new l;
                c := g_c g; c_old := g_c_old g; s := g_s g; s_old := g_s_old g;
                p_oold := p_oold; p_old := p_old; p := p;
                norm_rMR := norm_rMR; norm_r0 := norm_r0 st;
                eta := eta st;
                residualNorm2 := residualNorm2;
                n := n st |} in
  if residualNorm2 <? threshold2 tol_error
  then ret (st', true)
  else ret ({| x := x; v_old := l_v_old l; v := l_v l; v_new := l_v_new l;
               w := l_w l; w_new := l_w_new l;
               beta := l_beta l; beta_new := l_beta_new l;
               c := g_c g; c_old := g_c_old g; s := g_s g; s_old := g_s_old g;
               p_oold := p_oold; p_old := p_old; p := p;
               norm_rMR := norm_rMR; norm_r0 := norm_r0 st;
               eta := - g_s g * eta st;
               residualNorm2 := residualNorm2;
               n := (n st + 1)%Z |}, false).

(** [while ( n < maxIters ) { ... }].  [fuel] bounds the number of passes
    the model follows; [None] means it was too small to reach the end of
    the loop ([minres_loop_fuel] shows that [maxIters] passes are enough). *)
Fixpoint minres_loop (fuel : nat) (maxIters : Z) (tol_error : S) (st : LoopState S)
  : Traced S (option (LoopState S)) :=
  if (n st <? maxIters)%Z then
    match fuel with
    | O => ret None
    | Datatypes.S fuel' =>
        r <- minres_body tol_error st ;;
        if snd r then ret (Some (fst r))
        else minres_loop fuel' maxIters tol_error (fst r)
    end
  else ret (Some st).

(** Lines 166-167. *)
Definition minres_finish (st : LoopState S) : Result S :=
  {| x_out := x st;
     tol_error_out := s_sqrt (residualNorm2 st / rhsNorm2);
     iters_out := n st |}.

(** [minres(mat, rhs, x, precond, iters, tol_error)]. *)
Definition minres (junk : Indeterminate S) (x0 : VectorType S)
           (iters : Z) (tol_error : S) : Traced S (option (Result S)) :=
  tell (MinresCall x0) ;;;
  let maxIters := iters in
  st0 <- minres_init junk x0 ;;
  r <- minres_loop (Z.to_nat maxIters) maxIters tol_error st0 ;;
  ret (option_map minres_finish r).
End Kernel.

(** ** The wrapper: class [MINRES] *)

(** Modelled from the spec: [ComputationInfo] is declared outside this
    file; these are the two values the wrapper assigns, success and
    no-convergence. *)
Inductive ComputationInfo : Type := Success | NoConvergence.

(** Modelled from the spec: [IterativeSolverBase<MINRES>] is declared
    outside this file; these are the members the wrapper reads and writes,
    the configuration (iteration bound, tolerance, operator and
    preconditioner) and the status it reports.  [maxIterations] is what
    [Base::maxIterations()] returns, and [mp_matrix] stands for
    [mp_matrix->selfadjointView<UpLo>()], the operator the kernel is
    given. *)
Record Solver (S : Type) : Type := {
  mp_matrix : MatrixType S;
  m_preconditioner : Preconditioner S;
  maxIterations : Z;
  m_tolerance : S;
  m_error : S;
  m_iterations : Z;
  m_info : ComputationInfo;
  m_isInitialized : bool
}.

Section Wrapper.
Context {S : Type} `{RealScalar S}.
Local Open Scope scalar_scope.

(** A dense matrix as the list of its columns ([b.col(j)], [ColXpr xj(x,j)]). *)
Definition Columns : Type := list (VectorType S).

Definition col (m : Columns) (j : nat) : VectorType S := nth j m [].

Fixpoint set_col (m : Columns) (j : nat) (u : VectorType S) : Columns :=
  match m, j with
  | [], _ => []
  | _ :: m', O => u :: m'
  | a :: m', Datatypes.S j' => a :: set_col m' j' u
  end.

(** The body of [for(int j=0; j<b.cols(); ++j)], for the indices [js] in
    turn.  [junk j] is what the uninitialised locals of the [j]-th kernel
    call hold. *)
Fixpoint solve_columns (slv : Solver S) (junk : nat -> Indeterminate S)
         (b : Columns) (js : list nat) (x : Columns) (its : Z) (err : S)
  : Traced S (option (Columns * Z * S)) :=
  match js with
  | [] => ret (Some (x, its, err))
  | j :: js' =>
      let its := maxIterations slv in
      let err := m_tolerance slv in
      r <- minres (mp_matrix slv) (col b j) (m_preconditioner slv)
                  (junk j) (col x j) its err ;;
      match r with
      | None => ret None
      | Some res =>
          solve_columns slv junk b js' (set_col x j (x_out res))
                        (iters_out res) (tol_error_out res)
      end
  end.

(** [MINRES::_solveWithGuess(b, x)]. *)
Definition _solveWithGuess (slv : Solver S) (junk : nat -> Indeterminate S)
           (b x : Columns) : Traced S (option (Columns * Solver S)) :=
  let its := maxIterations slv in
  let err := m_tolerance slv in
  r <- solve_columns slv junk b (seq 0 (length b)) x its err ;;
  ret (option_map
         (fun '(x', its', err') =>
            (x', {| mp_matrix := mp_matrix slv;
                    m_preconditioner := m_preconditioner slv;
                    maxIterations := maxIterations slv;
                    m_tolerance := m_tolerance slv;
                    m_error := err';
                    m_iterations := its';
                    m_info := if err' <=? m_tolerance slv
                              then Success else NoConvergence;
                    m_isInitialized := true |}))
         r).

(** [MINRES::_solve(b, x)]. *)
Definition _solve (slv : Solver S) (junk : nat -> Indeterminate S)
           (b x : Columns) : Traced S (option (Columns * Solver S)) :=
  let x := map setOnes x in
  _solveWithGuess slv junk b x.
End Wrapper.

(** * Vocabulary of the statements *)

Section Vocabulary.
Context {S : Type}.

(** How often the loop body was entered, the matrix applied and the
    preconditioner solved in a trace. *)
Definition passes (tr : list (Event S)) : nat := count is_LoopBody tr.
Definition mat_applications (tr : list (Event S)) : nat := count is_MatTimes tr.
Definition precond_solves (tr : list (Event S)) : nat := count is_PrecondSolve tr.

(** The iterates of a run: the vectors at which a pass recomputed the
    residual, in order.  A pass shows in the trace as its entry, the
    product with [w], the preconditioner solve, and the product with the
    updated [x]; the iterate is the argument of that last product. *)
Fixpoint iterates (tr : list (Event S)) : list (VectorType S) :=
  match tr with
  | [] => []
  | LoopBody _ :: MatTimes _ :: PrecondSolve _ :: MatTimes u :: tr' =>
      u :: iterates tr'
  | _ :: tr' => iterates tr'
  end.

(** The vectors [minres] was entered with, in order. *)
Definition guesses (tr : list (Event S)) : list (VectorType S) :=
  flat_map (fun e => match e with MinresCall x => [x] | _ => [] end) tr.

(** The same loop state with another value in [norm_rMR]. *)
Definition with_norm_rMR (r : S) (st : LoopState S) : LoopState S :=
  {| x := x st; v_old := v_old st; v := v st; v_new := v_new st;
     w := w st; w_new := w_new st;
     beta := beta st; beta_new := beta_new st;
     c := c st; c_old := c_old st; s := s st; s_old := s_old st;
     p_oold := p_oold st; p_old := p_old st; p := p st;
     norm_rMR := r; norm_r0 := norm_r0 st;
     eta := eta st;
     residualNorm2 := residualNorm2 st;
     n := n st |}.

(** The same loop state with other values in [beta], [norm_rMR] and
    [norm_r0]. *)
Definition with_estimate (b r r0 : S) (st : LoopState S) : LoopState S :=
  {| x := x st; v_old := v_old st; v := v st; v_new := v_new st;
     w := w st; w_new := w_new st;
     beta := b; beta_new := beta_new st;
     c := c st; c_old := c_old st; s := s st; s_old := s_old st;
     p_oold := p_oold st; p_old := p_old st; p := p st;
     norm_rMR := r; norm_r0 := r0;
     eta := eta st;
     residualNorm2 := residualNorm2 st;
     n := n st |}.

(** The same uninitialised memory with another value where [beta] lives. *)
Definition with_u_beta (q : S) (junk : Indeterminate S) : Indeterminate S :=
  {| u_v_old := u_v_old junk; u_w := u_w junk; u_p := u_p junk;
     u_beta := q; u_residualNorm2 := u_residualNorm2 junk |}.

(** The same loop state with other values in the variables a pass
    overwrites before it reads them, or never reads: [v_old], [w], [beta],
    [norm_rMR], [norm_r0] and [residualNorm2]. *)
Definition with_scratch (vo wv : VectorType S) (b r r0 rn : S) (st : LoopState S)
  : LoopState S :=
  {| x := x st; v_old := vo; v := v st; v_new := v_new st;
     w := wv; w_new := w_new st;
     beta := b; beta_new := beta_new st;
     c := c st; c_old := c_old st; s := s st; s_old := s_old st;
     p_oold := p_oold st; p_old := p_old st; p := p st;
     norm_rMR := r; norm_r0 := r0;
     eta := eta st;
     residualNorm2 := rn;
     n := n st |}.

(** The vectors of the state a pass reads all have [N] coefficients. *)
Definition dims (N : nat) (st : LoopState S) : Prop :=
  length (x st) = N /\ length (v st) = N /\ length (v_new st) = N
  /\ length (w_new st) = N /\ length (p_old st) = N /\ length (p st) = N.

(** The vector a call of the matrix or of the preconditioner was made with
    has [N] coefficients. *)
Definition sized (N : nat) (e : Event S) : Prop :=
  match e with
  | MatTimes u | PrecondSolve u | MinresCall u => length u = N
  | LoopBody _ => True
  end.
End Vocabulary.

(** The test of line 159 on a vector [u]: the squared norm of [mat*u - rhs]
    is below the threshold. *)
Definition below_threshold {S : Type} `{RealScalar S}
  (mat : MatrixType S) (rhs : VectorType S) (tol_error : S) (u : VectorType S) : bool :=
  s_lt (squaredNorm (vsub (times mat u) rhs)) (threshold2 rhs tol_error).

(** * Concrete inputs, in [double] *)

Module Inputs.
Local Open Scope float_scope.

(** The symmetric 2x2 matrix [[0 1] [1 0]]. *)
Definition swap2 : MatrixType float :=
  {| cols := 2;
     times := fun u => match u with [a; b] => [b; a] | _ => u end |}.

(** The 1x1 matrix [[a]]. *)
Definition scalar1 (a : float) : MatrixType float :=
  {| cols := 1; times := fun u => map (fun b => a * b) u |}.

(** [IdentityPreconditioner]: [solve] returns its argument. *)
Definition identity : Preconditioner float := {| solve := fun u => u |}.

(** Uninitialised memory that happens to hold [q] in every coefficient of
    the vectors and in [beta], and [r] in [residualNorm2]. *)
Definition memory (N : nat) (q r : float) : Indeterminate float :=
  {| u_v_old := repeat q N; u_w := repeat q N; u_p := repeat q N;
     u_beta := q; u_residualNorm2 := r |}.
Arguments memory N%_nat (q r)%_float.

(** A tolerance, 2^-20. *)
Definition tol : float := 0x1p-20.
End Inputs.

(** * Signs of [double] values *)

(** The value is NaN, a zero, or positive (finite or infinite). *)
Definition SFnot_negative (f : spec_float) : Prop :=
  match f with
  | S754_nan | S754_zero _ => True
  | S754_infinity sg | S754_finite sg _ _ => sg = false
  end.

(** The value is NaN or a zero. *)
Definition SFzero_or_nan (f : spec_float) : Prop :=
  match f with
  | S754_nan | S754_zero _ => True
  | _ => False
  end.

(** The value is NaN or plus infinity. *)
Definition SFnan_or_pinf (f : spec_float) : Prop :=
  match f with
  | S754_nan | S754_infinity false => True
  | _ => False
  end.

Definition not_negative (a : float) : Prop := SFnot_negative (Prim2SF a).

(** [a == 0.0]: the coefficient is one of the two zeros. *)
Definition is_zero (a : float) : Prop := PrimFloat.eqb a 0%float = true.

(** [b] is the zero vector. *)
Definition zero_vector (b : VectorType float) : Prop := Forall is_zero b.

(** The value is a zero or NaN. *)
Definition zero_or_nan (a : float) : Prop := SFzero_or_nan (Prim2SF a).

(** Every coefficient of [u] is NaN. *)
Definition all_nan (u : VectorType float) : Prop := Forall (fun a => a = nan) u.

(** * Properties *)

Unset Implicit Arguments.

(** ** Traces *)

Section TraceFacts.
Context {S : Type}.

Lemma value_bind A B (m : Traced S A) (k : A -> Traced S B) :
  value (bind m k) = value (k (value m)).
Proof.
  unfold bind, value. destruct m as [a t1]. simpl.
  destruct (k a). reflexivity.
Qed.

Lemma trace_bind A B (m : Traced S A) (k : A -> Traced S B) :
  trace (bind m k) = trace m ++ trace (k (value m)).
Proof.
  unfold bind, value, trace. destruct m as [a t1]. simpl.
  destruct (k a). reflexivity.
Qed.

Lemma count_app (f : Event S -> bool) (t1 t2 : list (Event S)) :
  count f (t1 ++ t2) = (count f t1 + count f t2)%nat.
Proof.
  unfold count. rewrite filter_app, length_app. reflexivity.
Qed.

Lemma traced_eta A (m : Traced S A) : m = (value m, trace m).
Proof. destruct m. reflexivity. Qed.
End TraceFacts.


(** ** One pass through the loop body *)

Section BodyFacts.
Context {S : Type} `{RealScalar S}.
Local Open Scope scalar_scope.
Variable mat : MatrixType S.
Variable rhs : VectorType S.
Variable precond : Preconditioner S.

Local Abbreviation body := (minres_body mat rhs precond).

(** The events of one pass: the body is entered, the matrix is applied to
    [w], the preconditioner solves for the new Lanczos vector, and the
    matrix is applied to the updated [x]. *)
Lemma minres_body_trace (tol_error : S) (st : LoopState S) :
  exists u, trace (body tol_error st)
    = [LoopBody (n st); MatTimes (w_new st); PrecondSolve u;
       MatTimes (x (fst (value (body tol_error st))))].
Proof.
  unfold minres_body, lanczos, mat_times, precond_solve, bind, tell, ret, trace, value.
  simpl.
  match goal with |- context [if ?b then _ else _] => destruct b end;
    simpl; eexists; reflexivity.
Qed.

Lemma minres_body_passes (tol_error : S) (st : LoopState S) :
  passes (trace (body tol_error st)) = 1%nat.
Proof.
  destruct (minres_body_trace tol_error st) as [u ->]. reflexivity.
Qed.

(** [n] advances exactly when the pass does not leave through [break]. *)
Lemma minres_body_n (tol_error : S) (st : LoopState S) :
  n (fst (value (body tol_error st)))
  = if snd (value (body tol_error st)) then n st else (n st + 1)%Z.
Proof.
  unfold minres_body, lanczos, mat_times, precond_solve, bind, tell, ret, value.
  simpl.
  match goal with |- context [if ?b then _ else _] => destruct b end;
    reflexivity.
Qed.
End BodyFacts.

(** ** The loop *)

Section LoopFacts.
Context {S : Type} `{RealScalar S}.
Local Open Scope scalar_scope.
Variable mat : MatrixType S.
Variable rhs : VectorType S.
Variable precond : Preconditioner S.

Local Abbreviation body := (minres_body mat rhs precond).
Local Abbreviation loop := (minres_loop mat rhs precond).

Lemma minres_loop_unfold fuel maxIters tol_error (st : LoopState S) :
  loop fuel maxIters tol_error st
  = if (n st <? maxIters)%Z then
      match fuel with
      | O => ret None
      | Datatypes.S fuel' =>
          r <- body tol_error st ;;
          if snd r then ret (Some (fst r))
          else loop fuel' maxIters tol_error (fst r)
      end
    else ret (Some st).
Proof. destruct fuel; reflexivity. Qed.

Lemma minres_loop_exit fuel maxIters tol_error (st : LoopState S) :
  (maxIters <= n st)%Z ->
  loop fuel maxIters tol_error st = ret (Some st).
Proof.
  intros Hn. rewrite minres_loop_unfold.
  destruct (Z.ltb_spec (n st) maxIters); [lia | reflexivity].
Qed.

(** With at least [maxIters - n] passes of fuel the loop reaches its end;
    [n] never decreases and never passes [maxIters]; the body was entered
    once for each increment of [n], and once more when the last pass left
    through [break]. *)
Lemma minres_loop_fuel fuel maxIters tol_error (st : LoopState S) :
  (maxIters - n st <= Z.of_nat fuel)%Z ->
  exists st',
    value (loop fuel maxIters tol_error st) = Some st'
    /\ (n st <= n st')%Z
    /\ (n st' <= Z.max (n st) maxIters)%Z
    /\ (Z.of_nat (passes (trace (loop fuel maxIters tol_error st))) = n st' - n st
        \/ (Z.of_nat (passes (trace (loop fuel maxIters tol_error st))) = n st' - n st + 1
            /\ n st' < maxIters))%Z.
Proof.
  revert st. induction fuel as [|fuel IH]; intros st Hfuel.
  - rewrite minres_loop_exit by lia. exists st. cbn. repeat split; try lia.
  - destruct (Z.ltb_spec (n st) maxIters) as [Hlt|Hge].
    2:{ rewrite minres_loop_exit by lia. exists st. cbn. repeat split; try lia. }
    rewrite minres_loop_unfold.
    destruct (Z.ltb_spec (n st) maxIters) as [_|]; [|lia].
    rewrite value_bind, trace_bind.
    pose proof (minres_body_n mat rhs precond tol_error st) as Hn.
    pose proof (minres_body_passes mat rhs precond tol_error st) as Hp.
    unfold passes in *. rewrite count_app, Hp.
    destruct (body tol_error st) as [[st1 brk] tr1].
    unfold value, trace in Hn |- *; simpl in Hn |- *.
    destruct brk.
    + exists st1. simpl. repeat split; try lia.
    + destruct (IH st1) as (st' & Hv & Hle & Hmax & Hk); [lia|].
      unfold value, trace in Hv, Hk.
      exists st'. repeat split; try assumption; try lia.
Qed.
End LoopFacts.

(** ** The kernel as a whole *)

Section KernelFacts.
Context {S : Type} `{RealScalar S}.
Local Open Scope scalar_scope.
Variable mat : MatrixType S.
Variable rhs : VectorType S.
Variable precond : Preconditioner S.

Local Abbreviation init := (minres_init mat rhs precond).
Local Abbreviation body := (minres_body mat rhs precond).
Local Abbreviation loop := (minres_loop mat rhs precond).
Local Abbreviation kernel := (minres mat rhs precond).

Lemma minres_init_trace junk (x0 : VectorType S) :
  trace (init junk x0) = [MatTimes x0; PrecondSolve (vsub rhs (times mat x0))].
Proof. reflexivity. Qed.

Lemma minres_init_n junk (x0 : VectorType S) : n (value (init junk x0)) = 0%Z.
Proof. reflexivity. Qed.

Lemma minres_value junk (x0 : VectorType S) iters tol_error :
  value (kernel junk x0 iters tol_error)
  = option_map (minres_finish rhs)
      (value (loop (Z.to_nat iters) iters tol_error (value (init junk x0)))).
Proof.
  unfold minres. rewrite !value_bind. reflexivity.
Qed.

Lemma minres_trace junk (x0 : VectorType S) iters tol_error :
  trace (kernel junk x0 iters tol_error)
  = MinresCall x0 :: trace (init junk x0)
      ++ trace (loop (Z.to_nat iters) iters tol_error (value (init junk x0))).
Proof.
  unfold minres. rewrite !trace_bind. cbn [tell trace snd ret app].
  rewrite app_nil_r. reflexivity.
Qed.

Lemma minres_passes junk (x0 : VectorType S) iters tol_error :
  passes (trace (kernel junk x0 iters tol_error))
  = passes (trace (loop (Z.to_nat iters) iters tol_error (value (init junk x0)))).
Proof.
  rewrite minres_trace, minres_init_trace. reflexivity.
Qed.

Lemma minres_returns junk (x0 : VectorType S) iters tol_error :
  exists r, value (kernel junk x0 iters tol_error) = Some r.
Proof.
  destruct (minres_loop_fuel mat rhs precond (Z.to_nat iters) iters tol_error
              (value (init junk x0))) as (st' & Hv & _).
  { rewrite minres_init_n. lia. }
  exists (minres_finish rhs st'). rewrite minres_value, Hv. reflexivity.
Qed.
End KernelFacts.

(** The kernel returns, whatever its arguments: the loop ends after at most
    [iters] passes, and after none when [iters] is negative. *)
Theorem minres_terminates
  {S : Type} `{RealScalar S}
  (mat : MatrixType S) (rhs : VectorType S) (precond : Preconditioner S)
  (junk : Indeterminate S) (x0 : VectorType S) (iters : Z) (tol_error : S) :
  exists r,
    value (minres mat rhs precond junk x0 iters tol_error) = Some r
    /\ (0 <= iters_out r <= Z.max 0 iters)%Z
    /\ (Z.of_nat (passes (trace (minres mat rhs precond junk x0 iters tol_error)))
        <= Z.max 0 iters)%Z.
Proof.
  destruct (minres_loop_fuel mat rhs precond (Z.to_nat iters) iters tol_error
              (value (minres_init mat rhs precond junk x0)))
    as (st' & Hv & Hle & Hmax & Hp).
  { rewrite minres_init_n. lia. }
  rewrite minres_init_n in *.
  exists (minres_finish rhs st').
  rewrite minres_value, Hv, minres_passes. cbn [option_map minres_finish iters_out].
  repeat split; lia.
Qed.

(** ** Calls of the matrix and of the preconditioner *)

(** C4, as the code has it.  One pass through the loop body applies the
    matrix twice, to [w] in the Lanczos step and to the updated [x] when
    the residual is recomputed, and solves with the preconditioner once. *)
Theorem minres_body_calls
  {S : Type} `{RealScalar S}
  (mat : MatrixType S) (rhs : VectorType S) (precond : Preconditioner S)
  (tol_error : S) (st : LoopState S) :
  mat_applications (trace (minres_body mat rhs precond tol_error st)) = 2%nat
  /\ precond_solves (trace (minres_body mat rhs precond tol_error st)) = 1%nat
  /\ exists u,
       trace (minres_body mat rhs precond tol_error st)
       = [LoopBody (n st); MatTimes (w_new st); PrecondSolve u;
          MatTimes (x (fst (value (minres_body mat rhs precond tol_error st))))].
Proof.
  destruct (minres_body_trace mat rhs precond tol_error st) as [u Hu].
  rewrite Hu. repeat split. exists u. reflexivity.
Qed.

(** C4, as the claim has it, fails: in the first pass on
    [[0 1] [1 0]] x = (2, 0) the matrix is not applied once. *)
Lemma minres_body_mat_not_once :
  mat_applications
    (trace (minres_body Inputs.swap2 [2; 0]%float Inputs.identity Inputs.tol
              (value (minres_init Inputs.swap2 [2; 0]%float Inputs.identity
                        (Inputs.memory 2 0 0) [0; 0]%float))))
  <> 1%nat.
Proof. vm_compute. discriminate. Qed.

(** ** The termination test *)

(** One pass.  [residualNorm2] is the squared norm of [mat*x - rhs]
    for the [x] just updated; the pass leaves through [break] exactly when
    that value is below [tol_error*tol_error*rhs.squaredNorm()]; [n] stays
    as it was on [break] and advances by one otherwise; [norm_rMR] is
    multiplied by [fabs(s)] for the new [s]; and the value [norm_rMR] had
    on entry changes nothing but [norm_rMR] itself: not the decision, not
    the calls made, not any other variable. *)
Lemma minres_body_termination_test
  {S : Type} `{RealScalar S}
  (mat : MatrixType S) (rhs : VectorType S) (precond : Preconditioner S)
  (tol_error : S) (st : LoopState S) :
  let r := minres_body mat rhs precond tol_error st in
  let st' := fst (value r) in
  residualNorm2 st' = squaredNorm (vsub (times mat (x st')) rhs)
  /\ snd (value r)
     = s_lt (residualNorm2 st') (s_mul (s_mul tol_error tol_error) (squaredNorm rhs))
  /\ n st' = (if snd (value r) then n st else n st + 1)%Z
  /\ norm_rMR st' = s_mul (norm_rMR st) (s_fabs (s st'))
  /\ forall q : S,
       let r' := minres_body mat rhs precond tol_error (with_norm_rMR q st) in
       snd (value r') = snd (value r)
       /\ trace r' = trace r
       /\ fst (value r') = with_norm_rMR (s_mul q (s_fabs (s st'))) st'.
Proof.
  unfold minres_body, lanczos, mat_times, precond_solve, bind, tell, ret, value, trace,
    threshold2, rhsNorm2, with_norm_rMR.
  simpl.
  match goal with |- context [if ?b then _ else _] => destruct b eqn:Hb end;
    simpl; rewrite ?Hb; repeat split; reflexivity.
Qed.

(** ** The state before the first pass *)

(** Before the first pass the rotation scalars are [c = c_old = 1] and
    [s = s_old = 0], [eta] is 1, and [p_old] and [p_oold] are the zero
    vector of length [N]. *)
Lemma minres_init_state
  {S : Type} `{RealScalar S}
  (mat : MatrixType S) (rhs : VectorType S) (precond : Preconditioner S)
  (junk : Indeterminate S) (x0 : VectorType S) :
  let st0 := value (minres_init mat rhs precond junk x0) in
  c st0 = s_one /\ c_old st0 = s_one /\ s st0 = s_zero /\ s_old st0 = s_zero
  /\ eta st0 = s_one
  /\ p_old st0 = Zero (cols mat) /\ p_oold st0 = Zero (cols mat)
  /\ n st0 = 0%Z.
Proof. repeat split. Qed.

(** [p] is what the memory allocated for it holds. *)
Lemma minres_init_p
  {S : Type} `{RealScalar S}
  (mat : MatrixType S) (rhs : VectorType S) (precond : Preconditioner S)
  (junk : Indeterminate S) (x0 : VectorType S) :
  p (value (minres_init mat rhs precond junk x0)) = u_p junk.
Proof. reflexivity. Qed.

(** In the first pass the coefficient of [p_old] is [r2 = beta], and
    [p_old] is the uninitialised [p]: the first search direction is
    [(w - beta * u_p) / r1]. *)
Lemma minres_first_direction
  {S : Type} `{RealScalar S}
  (mat : MatrixType S) (rhs : VectorType S) (precond : Preconditioner S)
  (junk : Indeterminate S) (x0 : VectorType S) (tol_error : S) :
  let st0 := value (minres_init mat rhs precond junk x0) in
  let l := value (lanczos mat precond st0) in
  let g := givens s_one s_one s_zero s_zero (l_alpha l) (l_beta l) (l_beta_new l) in
  let st1 := fst (value (minres_body mat rhs precond tol_error st0)) in
  p_old st1 = u_p junk
  /\ p st1 = vdiv (vsub (vsub (l_w l) (vscale (g_r2 g) (u_p junk)))
                        (vscale (g_r3 g) (Zero (cols mat))))
                  (g_r1 g).
Proof.
  unfold minres_body, lanczos, mat_times, precond_solve, bind, tell, ret, value.
  simpl.
  match goal with |- context [if ?b then _ else _] => destruct b end;
    split; reflexivity.
Qed.

(** C7 on [[2]] x = (2) with [x = (0)] and one pass: [p] is not zero before
    the first pass when the memory it is allocated in holds 1, and the [x]
    the kernel returns changes with what that memory holds. *)
Theorem minres_p_uninitialised_double :
  p (value (minres_init (Inputs.scalar1 2) [2]%float Inputs.identity
              (Inputs.memory 1 1 0) [0]%float))
  = [1]%float
  /\ option_map (@x_out float)
       (value (minres (Inputs.scalar1 2) [2]%float Inputs.identity
                 (Inputs.memory 1 1 0) [0]%float 1 Inputs.tol))
     = Some [-0.5]%float
  /\ option_map (@x_out float)
       (value (minres (Inputs.scalar1 2) [2]%float Inputs.identity
                 (Inputs.memory 1 0 0) [0]%float 1 Inputs.tol))
     = Some [0.5]%float.
Proof. vm_compute. repeat split. Qed.

(** ** A budget of zero passes *)

(** C9.  With [iters = 0] the loop body is never entered: the kernel
    computes the initial residual and its preconditioned image and goes
    straight to the last two lines.  [x] is returned as it came, the
    iteration count is 0, and the reported error is computed from what the
    uninitialised [residualNorm2] holds. *)
Theorem minres_zero_budget
  {S : Type} `{RealScalar S}
  (mat : MatrixType S) (rhs : VectorType S) (precond : Preconditioner S)
  (junk : Indeterminate S) (x0 : VectorType S) (tol_error : S) :
  minres mat rhs precond junk x0 0 tol_error
  = (Some {| x_out := x0;
             iters_out := 0;
             tol_error_out := s_sqrt (s_div (u_residualNorm2 junk) (squaredNorm rhs)) |},
     [MinresCall x0; MatTimes x0; PrecondSolve (vsub rhs (times mat x0))]).
Proof. reflexivity. Qed.

(** C8 on [[2]] x = (2) with [x = (0)] and a budget of zero passes: the
    [x] returned is [(0)], whose relative residual is 1; the error written
    back is 2 when [residualNorm2] is allocated where the memory holds 16,
    and 3 when it holds 36. *)
Theorem minres_zero_budget_error_double :
  value (minres (Inputs.scalar1 2) [2]%float Inputs.identity
           (Inputs.memory 1 0 16) [0]%float 0 Inputs.tol)
  = Some {| x_out := [0]%float; iters_out := 0; tol_error_out := 2%float |}
  /\ value (minres (Inputs.scalar1 2) [2]%float Inputs.identity
              (Inputs.memory 1 0 36) [0]%float 0 Inputs.tol)
     = Some {| x_out := [0]%float; iters_out := 0; tol_error_out := 3%float |}
  /\ PrimFloat.sqrt
       (squaredNorm (vsub (times (Inputs.scalar1 2) [0]%float) [2]%float)
        / squaredNorm [2]%float)%float
     = 1%float.
Proof. vm_compute. repeat split. Qed.

(** ** The Givens rotation *)

(** What the pass stores in [c] and [s]: [r1_hat / r1], and the quotient of
    the [beta_new] the pass started with (its [beta]) by [r1]. *)
Lemma minres_body_rotation
  {S : Type} `{RealScalar S}
  (mat : MatrixType S) (rhs : VectorType S) (precond : Preconditioner S)
  (tol_error : S) (st : LoopState S) :
  let l := value (lanczos mat precond st) in
  let g := givens (c st) (c_old st) (s st) (s_old st)
                  (l_alpha l) (l_beta l) (l_beta_new l) in
  let st' := fst (value (minres_body mat rhs precond tol_error st)) in
  g_r1_hat g = s_sub (s_mul (c st) (l_alpha l)) (s_mul (s_mul (c_old st) (s st)) (l_beta l))
  /\ g_r1 g = s_sqrt (s_add (s_mul (g_r1_hat g) (g_r1_hat g))
                            (s_mul (beta_new st') (beta_new st')))
  /\ c st' = s_div (g_r1_hat g) (g_r1 g)
  /\ s st' = s_div (beta_new st) (g_r1 g)
  /\ beta st' = beta_new st.
Proof.
  unfold minres_body, lanczos, mat_times, precond_solve, bind, tell, ret, value.
  simpl.
  match goal with |- context [if ?b then _ else _] => destruct b end;
    repeat split; reflexivity.
Qed.

(** C1 in the first pass on [[0 1] [1 0]] x = (2, 0) with [x = (0, 0)]:
    [beta] is 2, [beta_new] is 1, [r1_hat] is 0 and [r1] is 1; the pass
    stores [c = r1_hat / r1 = 0] and [s = beta / r1 = 2], while
    [beta_new / r1] is 1. *)
Theorem minres_sine_double :
  let st0 := value (minres_init Inputs.swap2 [2; 0]%float Inputs.identity
                      (Inputs.memory 2 0 0) [0; 0]%float) in
  let l := value (lanczos Inputs.swap2 Inputs.identity st0) in
  let g := givens (c st0) (c_old st0) (s st0) (s_old st0)
                  (l_alpha l) (l_beta l) (l_beta_new l) in
  let st1 := fst (value (minres_body Inputs.swap2 [2; 0]%float Inputs.identity
                           Inputs.tol st0)) in
  l_beta l = 2%float /\ l_beta_new l = 1%float
  /\ g_r1_hat g = 0%float /\ g_r1 g = 1%float
  /\ c st1 = 0%float /\ s st1 = 2%float
  /\ (l_beta_new l / g_r1 g)%float = 1%float.
Proof. vm_compute. repeat split. Qed.

(** C2 in the same pass: the pair stored is [(c, s) = (0, 2)], and
    [c*c + s*s] is 4. *)
Theorem minres_rotation_norm_double :
  let st0 := value (minres_init Inputs.swap2 [2; 0]%float Inputs.identity
                      (Inputs.memory 2 0 0) [0; 0]%float) in
  let st1 := fst (value (minres_body Inputs.swap2 [2; 0]%float Inputs.identity
                           Inputs.tol st0)) in
  c st1 = 0%float /\ s st1 = 2%float
  /\ (c st1 * c st1 + s st1 * s st1)%float = 4%float.
Proof. vm_compute. repeat split. Qed.

(** ** The wrapper *)

Section WrapperFacts.
Context {S : Type} `{RealScalar S}.

Lemma guesses_app (t1 t2 : list (Event S)) :
  guesses (t1 ++ t2) = guesses t1 ++ guesses t2.
Proof. apply flat_map_app. Qed.

Lemma guesses_minres_body mat rhs precond tol_error (st : LoopState S) :
  guesses (trace (minres_body mat rhs precond tol_error st)) = [].
Proof.
  destruct (minres_body_trace mat rhs precond tol_error st) as [u ->]. reflexivity.
Qed.

Lemma guesses_minres_loop mat rhs precond fuel maxIters tol_error (st : LoopState S) :
  guesses (trace (minres_loop mat rhs precond fuel maxIters tol_error st)) = [].
Proof.
  revert st. induction fuel as [|fuel IH]; intros st; rewrite minres_loop_unfold;
    destruct (n st <? maxIters)%Z; try reflexivity.
  rewrite trace_bind, guesses_app, guesses_minres_body.
  destruct (snd (value (minres_body mat rhs precond tol_error st)));
    [reflexivity | apply IH].
Qed.

(** The kernel is entered once in a call, with the [x] it is given. *)
Lemma guesses_minres mat rhs precond junk (x0 : VectorType S) iters tol_error :
  guesses (trace (minres mat rhs precond junk x0 iters tol_error)) = [x0].
Proof.
  rewrite minres_trace, minres_init_trace. cbn [guesses flat_map app].
  change (flat_map _ ?t) with (guesses t).
  rewrite guesses_minres_loop. reflexivity.
Qed.

Lemma col_set_col_other (m : Columns) (j j' : nat) (u : VectorType S) :
  j <> j' -> col (set_col m j u) j' = col m j'.
Proof.
  unfold col. revert j j'. induction m as [|a m IH]; intros j j' Hne.
  - reflexivity.
  - destruct j as [|j], j' as [|j']; simpl; try reflexivity; try congruence.
    apply IH. congruence.
Qed.

Lemma col_setOnes (m : Columns) (j : nat) :
  col (map setOnes m) j = setOnes (col m j).
Proof.
  unfold col. change (@nil S) with (setOnes (@nil S)) at 1. apply map_nth.
Qed.

Lemma setOnes_ones (u : VectorType S) : Forall (eq s_one) (setOnes u).
Proof.
  unfold setOnes. induction u; simpl; constructor; auto.
Qed.

(** The columns are handed to the kernel as they stand when the loop over
    the columns starts: solving for one column leaves the others alone. *)
Lemma guesses_solve_columns slv junk (b : Columns) (js : list nat) (m : Columns) its err :
  NoDup js ->
  guesses (trace (solve_columns slv junk b js m its err)) = map (col m) js.
Proof.
  revert m its err. induction js as [|j js IH]; intros m its err Hnd.
  - reflexivity.
  - inversion Hnd as [|? ? Hnotin Hnd']; subst.
    cbn [solve_columns map].
    rewrite trace_bind, guesses_app, guesses_minres.
    destruct (minres_returns (mp_matrix slv) (col b j) (m_preconditioner slv)
                (junk j) (col m j) (maxIterations slv) (m_tolerance slv)) as [r ->].
    rewrite IH by assumption. cbn [app]. f_equal.
    apply map_ext_in. intros j' Hin. apply col_set_col_other.
    intros ->. contradiction.
Qed.
End WrapperFacts.

(** C10.  [_solve] enters the kernel once for each column of [b], and the
    [x] it hands over for column [j] is column [j] of the destination with
    every coefficient set to one. *)
Theorem _solve_guess_is_ones
  {S : Type} `{RealScalar S}
  (slv : Solver S) (junk : nat -> Indeterminate S) (b x : Columns) :
  guesses (trace (_solve slv junk b x))
  = map (fun j => setOnes (col x j)) (seq 0 (length b))
  /\ Forall (Forall (eq s_one)) (guesses (trace (_solve slv junk b x))).
Proof.
  assert (Hg : guesses (trace (_solve slv junk b x))
               = map (fun j => setOnes (col x j)) (seq 0 (length b))).
  { unfold _solve, _solveWithGuess.
    rewrite trace_bind, guesses_app. cbn [ret trace snd guesses flat_map].
    rewrite app_nil_r, guesses_solve_columns by apply seq_NoDup.
    apply map_ext. intros j. apply col_setOnes. }
  split; [exact Hg|].
  rewrite Hg. apply Forall_forall. intros g Hin.
  apply in_map_iff in Hin. destruct Hin as (j & <- & _). apply setOnes_ones.
Qed.

(** ** What the loop leaves in [residualNorm2] and in [n] *)

Section LoopResults.
Context {S : Type} `{RealScalar S}.
Local Open Scope scalar_scope.
Variable mat : MatrixType S.
Variable rhs : VectorType S.
Variable precond : Preconditioner S.

Local Abbreviation body := (minres_body mat rhs precond).
Local Abbreviation loop := (minres_loop mat rhs precond).

(** The test a pass ends with, and the value it leaves in [residualNorm2]. *)
Lemma minres_body_break (tol_error : S) (st : LoopState S) :
  residualNorm2 (fst (value (body tol_error st)))
  = squaredNorm (vsub (times mat (x (fst (value (body tol_error st))))) rhs)
  /\ snd (value (body tol_error st))
     = (residualNorm2 (fst (value (body tol_error st))) <? threshold2 rhs tol_error).
Proof.
  unfold minres_body, lanczos, mat_times, precond_solve, bind, tell, ret, value.
  simpl.
  match goal with |- context [if ?b then _ else _] => destruct b eqn:Hb end;
    simpl; rewrite ?Hb; split; reflexivity.
Qed.

(** After at least one pass, [residualNorm2] is the squared residual of
    the [x] the loop ends with. *)
Lemma minres_loop_residual fuel maxIters tol_error (st : LoopState S) :
  (maxIters - n st <= Z.of_nat fuel)%Z ->
  (n st < maxIters)%Z
  \/ residualNorm2 st = squaredNorm (vsub (times mat (x st)) rhs) ->
  exists st',
    value (loop fuel maxIters tol_error st) = Some st'
    /\ residualNorm2 st' = squaredNorm (vsub (times mat (x st')) rhs).
Proof.
  revert st. induction fuel as [|fuel IH]; intros st Hfuel Hst.
  - rewrite minres_loop_exit by lia. exists st. split; [reflexivity|].
    destruct Hst; [lia | assumption].
  - destruct (Z.ltb_spec (n st) maxIters) as [Hlt|Hge].
    2:{ rewrite minres_loop_exit by lia. exists st. split; [reflexivity|].
        destruct Hst; [lia | assumption]. }
    rewrite minres_loop_unfold.
    destruct (Z.ltb_spec (n st) maxIters) as [_|]; [|lia].
    rewrite value_bind.
    pose proof (minres_body_n mat rhs precond tol_error st) as Hn.
    destruct (minres_body_break tol_error st) as [Hres _].
    destruct (body tol_error st) as [[st1 brk] tr1].
    unfold value in Hn, Hres |- *; simpl in Hn, Hres |- *.
    destruct brk.
    + exists st1. split; [reflexivity | exact Hres].
    + apply IH; [lia | right; exact Hres].
Qed.

(** When no squared norm is below the threshold, no pass leaves through
    [break]: the loop makes every pass up to [maxIters]. *)
Lemma minres_loop_no_break fuel maxIters tol_error (st : LoopState S) :
  (forall u, (squaredNorm u <? threshold2 rhs tol_error) = false) ->
  (n st <= maxIters)%Z ->
  (maxIters - n st <= Z.of_nat fuel)%Z ->
  exists st',
    value (loop fuel maxIters tol_error st) = Some st'
    /\ n st' = maxIters
    /\ Z.of_nat (passes (trace (loop fuel maxIters tol_error st))) = (maxIters - n st)%Z.
Proof.
  intros Hnever. revert st. induction fuel as [|fuel IH]; intros st Hle Hfuel.
  - rewrite minres_loop_exit by lia. exists st. cbn. repeat split; lia.
  - destruct (Z.ltb_spec (n st) maxIters) as [Hlt|Hge].
    2:{ rewrite minres_loop_exit by lia. exists st. cbn. repeat split; lia. }
    rewrite minres_loop_unfold.
    destruct (Z.ltb_spec (n st) maxIters) as [_|]; [|lia].
    rewrite value_bind, trace_bind.
    pose proof (minres_body_n mat rhs precond tol_error st) as Hn.
    pose proof (minres_body_passes mat rhs precond tol_error st) as Hp.
    destruct (minres_body_break tol_error st) as [Hres Hbrk].
    rewrite Hres, Hnever in Hbrk.
    unfold passes in *. rewrite count_app, Hp.
    destruct (body tol_error st) as [[st1 brk] tr1].
    unfold value, trace in Hn, Hbrk |- *; simpl in Hn, Hbrk |- *. subst brk.
    destruct (IH st1) as (st' & Hv & Hn' & Hk); [lia | lia |].
    unfold value, trace in Hv, Hk.
    exists st'. repeat split; try assumption; lia.
Qed.
End LoopResults.

(** With a budget of at least one pass, the error written back is computed
    from the squared residual of the [x] that is returned. *)
Theorem minres_error_of_returned_x
  {S : Type} `{RealScalar S}
  (mat : MatrixType S) (rhs : VectorType S) (precond : Preconditioner S)
  (junk : Indeterminate S) (x0 : VectorType S) (iters : Z) (tol_error : S) :
  (1 <= iters)%Z ->
  exists r,
    value (minres mat rhs precond junk x0 iters tol_error) = Some r
    /\ tol_error_out r
       = s_sqrt (s_div (squaredNorm (vsub (times mat (x_out r)) rhs)) (squaredNorm rhs)).
Proof.
  intros Hk.
  destruct (minres_loop_residual mat rhs precond (Z.to_nat iters) iters tol_error
              (value (minres_init mat rhs precond junk x0)))
    as (st' & Hv & Hres).
  { rewrite minres_init_n. lia. }
  { left. rewrite minres_init_n. lia. }
  exists (minres_finish rhs st'). rewrite minres_value, Hv.
  split; [reflexivity|].
  cbn [minres_finish tol_error_out x_out]. rewrite Hres. reflexivity.
Qed.

(** One pass on [[2]] x = (2): the error written back is that of the [x]
    returned. *)
Lemma minres_error_of_returned_x_witness :
  exists r,
    value (minres (Inputs.scalar1 2) [2]%float Inputs.identity
                  (Inputs.memory 1 0 16) [0]%float 1 Inputs.tol) = Some r
    /\ tol_error_out r
       = s_sqrt (s_div (squaredNorm (vsub (times (Inputs.scalar1 2) (x_out r)) [2]%float))
                       (squaredNorm [2]%float)).
Proof.
  apply (minres_error_of_returned_x (Inputs.scalar1 2) [2]%float Inputs.identity
           (Inputs.memory 1 0 16) [0]%float 1 Inputs.tol).
  lia.
Defined.

(** ** The calls of a whole run, and the unused estimate *)

Section RunFacts.
Context {S : Type} `{RealScalar S}.
Local Open Scope scalar_scope.
Variable mat : MatrixType S.
Variable rhs : VectorType S.
Variable precond : Preconditioner S.

Local Abbreviation body := (minres_body mat rhs precond).
Local Abbreviation loop := (minres_loop mat rhs precond).

Lemma minres_loop_calls fuel maxIters tol_error (st : LoopState S) :
  mat_applications (trace (loop fuel maxIters tol_error st))
  = (2 * passes (trace (loop fuel maxIters tol_error st)))%nat
  /\ precond_solves (trace (loop fuel maxIters tol_error st))
     = passes (trace (loop fuel maxIters tol_error st)).
Proof.
  revert st. induction fuel as [|fuel IH]; intros st; rewrite minres_loop_unfold;
    destruct (n st <? maxIters)%Z; try (split; reflexivity).
  rewrite trace_bind. unfold mat_applications, precond_solves, passes in *.
  rewrite !count_app.
  destruct (minres_body_trace mat rhs precond tol_error st) as [u ->].
  destruct (snd (value (body tol_error st))).
  - split; reflexivity.
  - destruct (IH (fst (value (body tol_error st)))) as [-> ->].
    cbn [count filter is_MatTimes is_PrecondSolve is_LoopBody length].
    split; lia.
Qed.

(** A pass started with other values in [beta], [norm_rMR] and [norm_r0]
    makes the same calls, takes the same decision and ends in the same
    state but for [norm_rMR] and [norm_r0]. *)
Lemma minres_body_estimate tol_error b r r0 (st : LoopState S) :
  trace (body tol_error (with_estimate b r r0 st)) = trace (body tol_error st)
  /\ snd (value (body tol_error (with_estimate b r r0 st)))
     = snd (value (body tol_error st))
  /\ fst (value (body tol_error (with_estimate b r r0 st)))
     = with_estimate (beta_new st)
         (r * s_fabs (s (fst (value (body tol_error st))))) r0
         (fst (value (body tol_error st))).
Proof.
  unfold minres_body, lanczos, mat_times, precond_solve, bind, tell, ret, value, trace,
    with_estimate.
  simpl.
  match goal with |- context [if ?b then _ else _] => destruct b eqn:Hb end;
    simpl; repeat split; reflexivity.
Qed.

Lemma minres_loop_estimate fuel maxIters tol_error b r r0 (st : LoopState S) :
  exists b' r' r0',
    loop fuel maxIters tol_error (with_estimate b r r0 st)
    = (option_map (with_estimate b' r' r0') (value (loop fuel maxIters tol_error st)),
       trace (loop fuel maxIters tol_error st)).
Proof.
  revert b r r0 st. induction fuel as [|fuel IH]; intros b r r0 st;
    rewrite !minres_loop_unfold;
    change (n (with_estimate b r r0 st)) with (n st);
    destruct (n st <? maxIters)%Z;
    try (exists b, r, r0; reflexivity).
  destruct (minres_body_estimate tol_error b r r0 st) as (Ht & Hbrk & Hst).
  rewrite (traced_eta _ (bind (body tol_error (with_estimate b r r0 st)) _)).
  rewrite !value_bind, !trace_bind, Ht, Hbrk, Hst.
  destruct (snd (value (body tol_error st))).
  - do 3 eexists. reflexivity.
  - edestruct IH as (b' & r' & r0' & ->). exists b', r', r0'. reflexivity.
Qed.
End RunFacts.

(** A whole run applies the matrix once before the loop and twice in each
    pass, and solves with the preconditioner once before the loop and once
    in each pass. *)
Theorem minres_calls
  {S : Type} `{RealScalar S}
  (mat : MatrixType S) (rhs : VectorType S) (precond : Preconditioner S)
  (junk : Indeterminate S) (x0 : VectorType S) (iters : Z) (tol_error : S) :
  let tr := trace (minres mat rhs precond junk x0 iters tol_error) in
  mat_applications tr = (1 + 2 * passes tr)%nat
  /\ precond_solves tr = (1 + passes tr)%nat.
Proof.
  cbn zeta. rewrite minres_passes, minres_trace, minres_init_trace.
  destruct (minres_loop_calls mat rhs precond (Z.to_nat iters) iters tol_error
              (value (minres_init mat rhs precond junk x0))) as [Hm Hp].
  unfold mat_applications, precond_solves, passes in *.
  cbn [count filter is_MatTimes is_PrecondSolve app length] in *.
  fold (count (@is_MatTimes S)
          (trace (minres_loop mat rhs precond (Z.to_nat iters) iters tol_error
                    (value (minres_init mat rhs precond junk x0))))).
  fold (count (@is_PrecondSolve S)
          (trace (minres_loop mat rhs precond (Z.to_nat iters) iters tol_error
                    (value (minres_init mat rhs precond junk x0))))).
  rewrite Hm, Hp. split; reflexivity.
Qed.

(** What the uninitialised [beta] holds, the only source of [norm_rMR] and
    [norm_r0], changes neither what the kernel returns nor what it calls. *)
Theorem minres_ignores_estimate
  {S : Type} `{RealScalar S}
  (mat : MatrixType S) (rhs : VectorType S) (precond : Preconditioner S)
  (junk : Indeterminate S) (x0 : VectorType S) (iters : Z) (tol_error : S) (q : S) :
  minres mat rhs precond (with_u_beta q junk) x0 iters tol_error
  = minres mat rhs precond junk x0 iters tol_error.
Proof.
  rewrite (traced_eta _ (minres mat rhs precond (with_u_beta q junk) x0 iters tol_error)).
  rewrite (traced_eta _ (minres mat rhs precond junk x0 iters tol_error)).
  rewrite !minres_value, !minres_trace, !minres_init_trace.
  change (value (minres_init mat rhs precond (with_u_beta q junk) x0))
    with (with_estimate q q q (value (minres_init mat rhs precond junk x0))).
  destruct (minres_loop_estimate mat rhs precond (Z.to_nat iters) iters tol_error
              q q q (value (minres_init mat rhs precond junk x0)))
    as (b' & r' & r0' & ->).
  unfold value at 1, trace at 1. cbn [fst snd].
  destruct (value (minres_loop mat rhs precond (Z.to_nat iters) iters tol_error
                     (value (minres_init mat rhs precond junk x0)))); reflexivity.
Qed.

(** ** Signs in [double] arithmetic *)

Lemma binary_round_aux_sign sx mx ex lx :
  match binary_round_aux prec emax sx mx ex lx with
  | S754_nan => True
  | S754_zero sg | S754_infinity sg | S754_finite sg _ _ => sg = sx
  end.
Proof.
  unfold binary_round_aux.
  destruct (shr_fexp prec emax mx ex lx) as [mrs' e'].
  destruct (shr_fexp prec emax _ e' loc_Exact) as [mrs'' e''].
  destruct (shr_m mrs''); try exact I; try reflexivity.
  destruct (Z.leb e'' (emax - prec)); reflexivity.
Qed.

Lemma SFnot_negative_round mx ex lx :
  SFnot_negative (binary_round_aux prec emax false mx ex lx).
Proof.
  pose proof (binary_round_aux_sign false mx ex lx) as Hs.
  destruct (binary_round_aux prec emax false mx ex lx); simpl; auto.
Qed.

Lemma SFmul_self_not_negative f : SFnot_negative (SFmul prec emax f f).
Proof.
  destruct f as [sg|sg| |sg m e]; simpl; try exact I.
  - apply xorb_nilpotent.
  - rewrite xorb_nilpotent. apply SFnot_negative_round.
Qed.

Lemma SFadd_not_negative f g :
  SFnot_negative f -> SFnot_negative g -> SFnot_negative (SFadd prec emax f g).
Proof.
  destruct f as [sf|sf| |sf mf ef], g as [sg|sg| |sg mg eg]; simpl; intros Hf Hg;
    subst; try exact I; try reflexivity.
  - destruct sf, sg; exact I.
  - unfold binary_normalize. simpl.
    unfold binary_round.
    destruct (shl_align _ _ _). apply SFnot_negative_round.
Qed.

Lemma SFmul_zero_zero_or_nan f : SFzero_or_nan (SFmul prec emax f (S754_zero false)).
Proof. destruct f; exact I. Qed.

Lemma SFltb_not_negative_zero f g :
  SFnot_negative f -> SFzero_or_nan g -> SFltb f g = false.
Proof.
  destruct f as [sf|sf| |sf mf ef], g as [sg|sg| |sg mg eg]; simpl;
    intros Hf Hg; subst; try contradiction; reflexivity.
Qed.

Lemma SFdiv_zero_nan_or_pinf f :
  SFnot_negative f -> SFnan_or_pinf (SFdiv prec emax f (S754_zero false)).
Proof.
  destruct f as [sf|sf| |sf mf ef]; simpl; intros Hf; subst; exact I.
Qed.

Lemma SFsqrt_nan_or_pinf f :
  SFnan_or_pinf f -> SFnan_or_pinf (SFsqrt prec emax f).
Proof.
  destruct f as [sf|sf| |sf mf ef]; try destruct sf; simpl; intros Hf;
    try contradiction; exact I.
Qed.

Lemma Prim2SF_zero : Prim2SF 0%float = S754_zero false.
Proof. reflexivity. Qed.

Lemma nan_or_pinf_float (a : float) :
  SFnan_or_pinf (Prim2SF a) -> a = nan \/ a = infinity.
Proof.
  intros Ha. destruct (Prim2SF a) as [sg|sg| |sg m e] eqn:E; try contradiction.
  - destruct sg; [contradiction|]. right. apply Prim2SF_inj. rewrite E. reflexivity.
  - left. apply Prim2SF_inj. rewrite E. reflexivity.
Qed.

(** A sum of squares is never negative, whatever overflows or is NaN. *)
Lemma fold_squares_not_negative (l : list float) (acc : float) :
  not_negative acc ->
  not_negative (fold_left s_add (map (fun a => s_mul a a) l) acc).
Proof.
  revert acc. induction l as [|a l IH]; intros acc Hacc; [exact Hacc|].
  cbn [map fold_left]. apply IH. unfold not_negative. cbn [s_add s_mul double_scalar].
  rewrite add_spec, mul_spec. apply SFadd_not_negative; [exact Hacc|].
  apply SFmul_self_not_negative.
Qed.

Lemma squaredNorm_not_negative (u : VectorType float) : not_negative (squaredNorm u).
Proof.
  unfold squaredNorm, sum. destruct u as [|a u]; [exact I|].
  cbn [map]. apply fold_squares_not_negative.
  unfold not_negative. cbn [s_mul double_scalar]. rewrite mul_spec.
  apply SFmul_self_not_negative.
Qed.

Lemma is_zero_square (a : float) : is_zero a -> (a * a)%float = 0%float.
Proof.
  unfold is_zero. rewrite eqb_spec, Prim2SF_zero. intros Ha.
  apply Prim2SF_inj. rewrite mul_spec, Prim2SF_zero.
  destruct (Prim2SF a) as [sg|sg| |sg m e]; try destruct sg;
    try discriminate Ha; reflexivity.
Qed.

Lemma fold_squares_zero (l : list float) :
  zero_vector l -> fold_left s_add (map (fun a => s_mul a a) l) 0%float = 0%float.
Proof.
  induction 1 as [|a l Ha _ IH]; [reflexivity|].
  cbn [map fold_left]. cbn [s_add s_mul double_scalar] in *.
  rewrite (is_zero_square a Ha). exact IH.
Qed.

Lemma squaredNorm_zero (rhs : VectorType float) :
  zero_vector rhs -> squaredNorm rhs = 0%float.
Proof.
  unfold squaredNorm, sum. intros Hz. destruct Hz as [|a l Ha Hl]; [reflexivity|].
  cbn [map]. cbn [s_mul double_scalar]. rewrite (is_zero_square a Ha).
  apply fold_squares_zero. exact Hl.
Qed.

(** With a zero right-hand side the threshold is a zero or NaN, and no
    squared norm is below it. *)
Lemma threshold2_zero_rhs (rhs u : VectorType float) (tol_error : float) :
  zero_vector rhs ->
  s_lt (squaredNorm u) (threshold2 rhs tol_error) = false.
Proof.
  intros Hz. unfold threshold2, rhsNorm2. rewrite (squaredNorm_zero rhs Hz).
  cbn [s_lt s_mul double_scalar]. rewrite ltb_spec.
  apply SFltb_not_negative_zero.
  - apply squaredNorm_not_negative.
  - rewrite mul_spec, Prim2SF_zero. apply SFmul_zero_zero_or_nan.
Qed.

(** The quotient of a squared norm by zero has a square root that is NaN
    or plus infinity. *)
Lemma sqrt_div_zero (u : VectorType float) :
  let e := PrimFloat.sqrt (squaredNorm u / 0)%float in e = nan \/ e = infinity.
Proof.
  apply nan_or_pinf_float. rewrite sqrt_spec, div_spec, Prim2SF_zero.
  apply SFsqrt_nan_or_pinf, SFdiv_zero_nan_or_pinf, squaredNorm_not_negative.
Qed.

(** ** A zero right-hand side *)

(** C3, as the code has it, in [double].  The kernel has no special case
    for a zero right-hand side.  [rhsNorm2] and with it the threshold are
    zero (or NaN), the test [residualNorm2 < threshold2] fails in every
    pass, so for a budget [iters = k >= 0] the kernel makes all [k] passes
    and returns [k] as the iteration count.  The error written back is
    [sqrt(residualNorm2 / rhsNorm2)] with [rhsNorm2 = 0]: the division by
    zero is carried out, and after at least one pass its result is NaN or
    plus infinity, never zero. *)
Theorem minres_zero_rhs_double
  (mat : MatrixType float) (rhs : VectorType float) (precond : Preconditioner float)
  (junk : Indeterminate float) (x0 : VectorType float) (iters : Z) (tol_error : float) :
  zero_vector rhs ->
  (0 <= iters)%Z ->
  exists r,
    value (minres mat rhs precond junk x0 iters tol_error) = Some r
    /\ Z.of_nat (passes (trace (minres mat rhs precond junk x0 iters tol_error))) = iters
    /\ iters_out r = iters
    /\ squaredNorm rhs = 0%float
    /\ tol_error_out r
       = PrimFloat.sqrt
           ((if (iters =? 0)%Z then u_residualNorm2 junk
             else squaredNorm (vsub (times mat (x_out r)) rhs))
            / squaredNorm rhs)%float
    /\ (iters = 0%Z \/ tol_error_out r = nan \/ tol_error_out r = infinity).
Proof.
  intros Hz Hk.
  pose proof (squaredNorm_zero rhs Hz) as Hrhs.
  destruct (minres_loop_no_break mat rhs precond (Z.to_nat iters) iters tol_error
              (value (minres_init mat rhs precond junk x0)))
    as (st' & Hv & Hn & Hp).
  { intros u. apply threshold2_zero_rhs. exact Hz. }
  { rewrite minres_init_n. lia. }
  { rewrite minres_init_n. lia. }
  rewrite minres_init_n in Hp.
  exists (minres_finish rhs st').
  rewrite minres_value, Hv, minres_passes, Hp.
  cbn [option_map minres_finish iters_out tol_error_out x_out].
  split; [reflexivity|]. split; [lia|]. split; [exact Hn|]. split; [exact Hrhs|].
  destruct (Z.eqb_spec iters 0) as [H0|Hpos].
  - split; [|left; exact H0].
    subst iters. rewrite minres_loop_exit in Hv by (rewrite minres_init_n; lia).
    injection Hv as <-. reflexivity.
  - destruct (minres_loop_residual mat rhs precond (Z.to_nat iters) iters tol_error
                (value (minres_init mat rhs precond junk x0)))
      as (st'' & Hv' & Hres).
    { rewrite minres_init_n. lia. }
    { left. rewrite minres_init_n. lia. }
    rewrite Hv in Hv'. injection Hv' as <-.
    unfold rhsNorm2. rewrite Hres, Hrhs.
    split; [reflexivity|]. right. apply sqrt_div_zero.
Qed.

(** One pass on [[1]] x = (0) from [x = (1)]. *)
Lemma minres_zero_rhs_double_witness :
  exists r,
    value (minres (Inputs.scalar1 1) [0]%float Inputs.identity (Inputs.memory 1 0 0)
                  [1]%float 1 Inputs.tol) = Some r
    /\ Z.of_nat (passes (trace (minres (Inputs.scalar1 1) [0]%float Inputs.identity
                                       (Inputs.memory 1 0 0) [1]%float 1 Inputs.tol)))
       = 1%Z
    /\ iters_out r = 1%Z
    /\ squaredNorm [0]%float = 0%float
    /\ tol_error_out r
       = PrimFloat.sqrt
           ((if (1 =? 0)%Z then u_residualNorm2 (Inputs.memory 1 0 0)
             else squaredNorm (vsub (times (Inputs.scalar1 1) (x_out r)) [0]%float))
            / squaredNorm [0]%float)%float
    /\ (1%Z = 0%Z \/ tol_error_out r = nan \/ tol_error_out r = infinity).
Proof.
  apply (minres_zero_rhs_double (Inputs.scalar1 1) [0]%float Inputs.identity
           (Inputs.memory 1 0 0) [1]%float 1 Inputs.tol).
  - repeat constructor.
  - lia.
Defined.

(** C3, as the claim has it, fails.  On [[1]] x = (0) from [x = (1)] with a
    budget of one pass the kernel makes that pass: it returns [x = (0)],
    an iteration count of 1 and the error [sqrt(0 / 0)], which is NaN. *)
Lemma minres_zero_rhs_not_immediate :
  value (minres (Inputs.scalar1 1) [0]%float Inputs.identity (Inputs.memory 1 0 0)
                [1]%float 1 Inputs.tol)
  = Some {| x_out := [0]%float; iters_out := 1; tol_error_out := nan |}
  /\ passes (trace (minres (Inputs.scalar1 1) [0]%float Inputs.identity
                           (Inputs.memory 1 0 0) [1]%float 1 Inputs.tol)) = 1%nat
  /\ ~ (exists r,
          value (minres (Inputs.scalar1 1) [0]%float Inputs.identity
                        (Inputs.memory 1 0 0) [1]%float 1 Inputs.tol) = Some r
          /\ x_out r = [1]%float /\ iters_out r = 0%Z /\ tol_error_out r = 0%float).
Proof.
  split; [vm_compute; reflexivity|]. split; [vm_compute; reflexivity|].
  intros (r & Hr & _ & Hi & _).
  vm_compute in Hr. injection Hr as <-. discriminate Hi.
Qed.

(** ** The rotation in exact arithmetic *)

(** Over the reals the pair the pass stores satisfies
    [c*c + s*s = (r1_hat^2 + beta^2) / (r1_hat^2 + beta_new^2)] whenever
    [r1] is not zero: it is a unit vector exactly when [beta] and
    [beta_new] have the same square. *)
Theorem givens_norm_real (c c_old s s_old alpha beta beta_new : R) :
  let g := givens c c_old s s_old alpha beta beta_new in
  g_r1 g <> 0%R ->
  (g_c g * g_c g + g_s g * g_s g
   = (g_r1_hat g * g_r1_hat g + beta * beta)
     / (g_r1_hat g * g_r1_hat g + beta_new * beta_new))%R
  /\ ((g_c g * g_c g + g_s g * g_s g = 1)%R <-> (beta * beta = beta_new * beta_new)%R).
Proof.
  cbn zeta. unfold givens, pow_half, pow_2.
  cbn [g_r1 g_c g_s g_r1_hat s_add s_sub s_mul s_div s_sqrt real_scalar].
  set (h := (c * alpha - c_old * s * beta)%R).
  set (q := (h * h + beta_new * beta_new)%R).
  intros Hr1.
  assert (Hq0 : (0 <= q)%R) by (unfold q; nra).
  assert (Hsq : (sqrt q * sqrt q = q)%R) by (apply sqrt_sqrt; exact Hq0).
  assert (Hq : q <> 0%R).
  { intros Hq. apply Hr1. rewrite Hq. apply sqrt_0. }
  assert (Heq : (h / sqrt q * (h / sqrt q) + beta / sqrt q * (beta / sqrt q)
                 = (h * h + beta * beta) / q)%R).
  { rewrite <- Hsq at 5. generalize (sqrt q) Hr1. intros r Hr. field. exact Hr. }
  split; [exact Heq|].
  rewrite Heq. split; intros Hone.
  - apply (f_equal (fun t => (t * q)%R)) in Hone.
    unfold Rdiv in Hone. rewrite Rmult_assoc, Rinv_l, Rmult_1_r, Rmult_1_l in Hone
      by exact Hq.
    unfold q in Hone. lra.
  - replace (h * h + beta * beta)%R with q by (unfold q; lra).
    unfold Rdiv. apply Rinv_r. exact Hq.
Qed.

(** The rotation of the first pass on [[0 1] [1 0]] x = (2, 0):
    [c = c_old = 1], [s = s_old = 0], [alpha = 0], [beta = 2], [beta_new = 1]. *)
Lemma givens_norm_real_witness :
  let g := givens 1%R 1%R 0%R 0%R 0%R 2%R 1%R in
  (g_c g * g_c g + g_s g * g_s g
   = (g_r1_hat g * g_r1_hat g + 2 * 2) / (g_r1_hat g * g_r1_hat g + 1 * 1))%R
  /\ ((g_c g * g_c g + g_s g * g_s g = 1)%R <-> (2 * 2 = 1 * 1)%R).
Proof.
  apply (givens_norm_real 1%R 1%R 0%R 0%R 0%R 2%R 1%R).
  cbn. unfold pow_half, pow_2. cbn.
  replace ((1 * 0 - 1 * 0 * 2) * (1 * 0 - 1 * 0 * 2) + 1 * 1)%R with 1%R by ring.
  rewrite sqrt_1. lra.
Defined.

(** ** How the loop ends *)

Section LoopOutcome.
Context {S : Type} `{RealScalar S}.
Local Open Scope scalar_scope.
Variable mat : MatrixType S.
Variable rhs : VectorType S.
Variable precond : Preconditioner S.

Local Abbreviation body := (minres_body mat rhs precond).
Local Abbreviation loop := (minres_loop mat rhs precond).

(** Once a pass has been made, the loop ends in one of two ways: below the
    budget, with the test of the last pass passed, or at the budget, with
    the test of the last pass failed.  Either way [residualNorm2] is the
    squared residual of the final [x]. *)
Lemma minres_loop_outcome fuel maxIters tol_error (st : LoopState S) :
  (maxIters - n st <= Z.of_nat fuel)%Z ->
  (n st < maxIters)%Z
  \/ (n st = maxIters
      /\ residualNorm2 st = squaredNorm (vsub (times mat (x st)) rhs)
      /\ below_threshold mat rhs tol_error (x st) = false) ->
  exists st',
    value (loop fuel maxIters tol_error st) = Some st'
    /\ residualNorm2 st' = squaredNorm (vsub (times mat (x st')) rhs)
    /\ (((n st' < maxIters)%Z /\ below_threshold mat rhs tol_error (x st') = true)
        \/ (n st' = maxIters /\ below_threshold mat rhs tol_error (x st') = false)).
Proof.
  revert st. induction fuel as [|fuel IH]; intros st Hfuel Hst.
  - destruct Hst as [Hlt | (Hn & Hres & Ht)]; [lia|].
    rewrite minres_loop_exit by lia. exists st. auto.
  - destruct Hst as [Hlt | (Hn & Hres & Ht)].
    2:{ rewrite minres_loop_exit by lia. exists st. auto. }
    rewrite minres_loop_unfold.
    destruct (Z.ltb_spec (n st) maxIters) as [_|]; [|lia].
    rewrite value_bind.
    pose proof (minres_body_n mat rhs precond tol_error st) as Hn.
    destruct (minres_body_break mat rhs precond tol_error st) as [Hres Hbrk].
    rewrite Hres in Hbrk at 1.
    fold (below_threshold mat rhs tol_error
            (x (fst (value (body tol_error st))))) in Hbrk.
    destruct (body tol_error st) as [[st1 brk] tr1].
    unfold value in Hn, Hres, Hbrk |- *; simpl in Hn, Hres, Hbrk |- *.
    destruct brk.
    + exists st1. split; [reflexivity|]. split; [exact Hres|].
      left. split; [lia | symmetry; exact Hbrk].
    + apply IH; [lia|].
      destruct (Z.eq_dec (n st1) maxIters) as [He|Hne]; [right | left; lia].
      split; [exact He|]. split; [exact Hres | symmetry; exact Hbrk].
Qed.
End LoopOutcome.

(** With a budget of at least one pass, the count the kernel returns tells
    whether it converged: it is below the budget exactly when the returned
    [x] passes the test [||mat*x - rhs||^2 < tol_error^2 * ||rhs||^2], and
    equal to the budget exactly when the returned [x] fails it. *)
Theorem minres_count_tells_convergence
  {S : Type} `{RealScalar S}
  (mat : MatrixType S) (rhs : VectorType S) (precond : Preconditioner S)
  (junk : Indeterminate S) (x0 : VectorType S) (iters : Z) (tol_error : S) :
  (1 <= iters)%Z ->
  exists r,
    value (minres mat rhs precond junk x0 iters tol_error) = Some r
    /\ (((iters_out r < iters)%Z
         /\ below_threshold mat rhs tol_error (x_out r) = true)
        \/ (iters_out r = iters
            /\ below_threshold mat rhs tol_error (x_out r) = false)).
Proof.
  intros Hk.
  destruct (minres_loop_outcome mat rhs precond (Z.to_nat iters) iters tol_error
              (value (minres_init mat rhs precond junk x0)))
    as (st' & Hv & _ & Hout).
  { rewrite minres_init_n. lia. }
  { left. rewrite minres_init_n. lia. }
  exists (minres_finish rhs st'). rewrite minres_value, Hv.
  split; [reflexivity | exact Hout].
Qed.

(** Two passes allowed on [[0 1] [1 0]] x = (2, 0). *)
Lemma minres_count_tells_convergence_witness :
  exists r,
    value (minres Inputs.swap2 [2; 0]%float Inputs.identity (Inputs.memory 2 0 0)
                  [0; 0]%float 2 Inputs.tol) = Some r
    /\ (((iters_out r < 2)%Z
         /\ below_threshold Inputs.swap2 [2; 0]%float Inputs.tol (x_out r) = true)
        \/ (iters_out r = 2%Z
            /\ below_threshold Inputs.swap2 [2; 0]%float Inputs.tol (x_out r) = false)).
Proof.
  apply (minres_count_tells_convergence Inputs.swap2 [2; 0]%float Inputs.identity
           (Inputs.memory 2 0 0) [0; 0]%float 2 Inputs.tol).
  lia.
Defined.

(** ** Which uninitialised variables a run can see *)

Section Scratch.
Context {S : Type} `{RealScalar S}.
Local Open Scope scalar_scope.
Variable mat : MatrixType S.
Variable rhs : VectorType S.
Variable precond : Preconditioner S.

Local Abbreviation body := (minres_body mat rhs precond).
Local Abbreviation loop := (minres_loop mat rhs precond).

(** A pass overwrites [v_old], [w], [beta] and [residualNorm2] before it
    reads them: started with other values there, it makes the same calls,
    takes the same decision and ends in the same state but for [norm_rMR]
    and [norm_r0]. *)
Lemma minres_body_scratch tol_error vo wv b r r0 rn (st : LoopState S) :
  trace (body tol_error (with_scratch vo wv b r r0 rn st)) = trace (body tol_error st)
  /\ snd (value (body tol_error (with_scratch vo wv b r r0 rn st)))
     = snd (value (body tol_error st))
  /\ fst (value (body tol_error (with_scratch vo wv b r r0 rn st)))
     = with_estimate (beta_new st)
         (r * s_fabs (s (fst (value (body tol_error st))))) r0
         (fst (value (body tol_error st))).
Proof.
  unfold minres_body, lanczos, mat_times, precond_solve, bind, tell, ret, value, trace,
    with_estimate, with_scratch.
  simpl.
  match goal with |- context [if ?b then _ else _] => destruct b eqn:Hb end;
    simpl; repeat split; reflexivity.
Qed.

Lemma minres_loop_scratch fuel maxIters tol_error vo wv b r r0 rn (st : LoopState S) :
  (n st < maxIters)%Z ->
  exists b' r' r0',
    loop (Datatypes.S fuel) maxIters tol_error (with_scratch vo wv b r r0 rn st)
    = (option_map (with_estimate b' r' r0')
         (value (loop (Datatypes.S fuel) maxIters tol_error st)),
       trace (loop (Datatypes.S fuel) maxIters tol_error st)).
Proof.
  intros Hlt. rewrite !minres_loop_unfold.
  change (n (with_scratch vo wv b r r0 rn st)) with (n st).
  destruct (Z.ltb_spec (n st) maxIters) as [_|]; [|lia].
  destruct (minres_body_scratch tol_error vo wv b r r0 rn st) as (Ht & Hbrk & Hst).
  rewrite (traced_eta _ (bind (body tol_error (with_scratch vo wv b r r0 rn st)) _)).
  rewrite !value_bind, !trace_bind, Ht, Hbrk, Hst.
  destruct (snd (value (body tol_error st))).
  - do 3 eexists. reflexivity.
  - edestruct (minres_loop_estimate mat rhs precond fuel maxIters tol_error)
      as (b' & r' & r0' & ->).
    exists b', r', r0'. reflexivity.
Qed.

Lemma minres_finish_estimate b r r0 (st : LoopState S) :
  minres_finish rhs (with_estimate b r r0 st) = minres_finish rhs st.
Proof. reflexivity. Qed.
End Scratch.

(** With a budget of at least one pass, the uninitialised [p] is the only
    uninitialised variable a run can see: two runs whose memory agrees
    where [p] is allocated return the same [x], count and error and make
    the same calls, whatever [v_old], [w], [beta] and [residualNorm2]
    hold. *)
Theorem minres_sees_only_p
  {S : Type} `{RealScalar S}
  (mat : MatrixType S) (rhs : VectorType S) (precond : Preconditioner S)
  (junk junk' : Indeterminate S) (x0 : VectorType S) (iters : Z) (tol_error : S) :
  (1 <= iters)%Z ->
  u_p junk = u_p junk' ->
  minres mat rhs precond junk' x0 iters tol_error
  = minres mat rhs precond junk x0 iters tol_error.
Proof.
  intros Hk Hp.
  rewrite (traced_eta _ (minres mat rhs precond junk' x0 iters tol_error)).
  rewrite (traced_eta _ (minres mat rhs precond junk x0 iters tol_error)).
  rewrite !minres_value, !minres_trace, !minres_init_trace.
  assert (Hinit : value (minres_init mat rhs precond junk' x0)
                  = with_scratch (u_v_old junk') (u_w junk') (u_beta junk')
                      (u_beta junk') (u_beta junk') (u_residualNorm2 junk')
                      (value (minres_init mat rhs precond junk x0))).
  { unfold minres_init, with_scratch, mat_times, precond_solve, bind, ret, value.
    simpl. rewrite Hp. reflexivity. }
  rewrite Hinit.
  destruct (Z.to_nat iters) as [|fuel] eqn:Hf; [lia|].
  destruct (minres_loop_scratch mat rhs precond fuel iters tol_error
              (u_v_old junk') (u_w junk') (u_beta junk') (u_beta junk') (u_beta junk')
              (u_residualNorm2 junk') (value (minres_init mat rhs precond junk x0)))
    as (b' & r' & r0' & ->).
  { rewrite minres_init_n. lia. }
  unfold value at 1, trace at 1. cbn [fst snd].
  destruct (value (minres_loop mat rhs precond (Datatypes.S fuel) iters tol_error
                     (value (minres_init mat rhs precond junk x0)))); reflexivity.
Qed.

(** One pass on [[2]] x = (2), with zeros where [p] is allocated and two
    different contents elsewhere. *)
Lemma minres_sees_only_p_witness :
  minres (Inputs.scalar1 2) [2]%float Inputs.identity
         {| u_v_old := [5]%float; u_w := [7]%float; u_p := [0]%float;
            u_beta := 3%float; u_residualNorm2 := 16%float |}
         [0]%float 1 Inputs.tol
  = minres (Inputs.scalar1 2) [2]%float Inputs.identity (Inputs.memory 1 0 0)
           [0]%float 1 Inputs.tol.
Proof.
  apply (minres_sees_only_p (Inputs.scalar1 2) [2]%float Inputs.identity
           (Inputs.memory 1 0 0)
           {| u_v_old := [5]%float; u_w := [7]%float; u_p := [0]%float;
              u_beta := 3%float; u_residualNorm2 := 16%float |}
           [0]%float 1 Inputs.tol).
  - lia.
  - reflexivity.
Defined.

(** ** Dimensions *)

Create HintDb dims.

Section Dimensions.
Context {S : Type} `{RealScalar S}.
Local Open Scope scalar_scope.
Variable mat : MatrixType S.
Variable rhs : VectorType S.
Variable precond : Preconditioner S.
Variable N : nat.
Hypothesis mat_square : forall u, length u = N -> length (times mat u) = N.
Hypothesis solve_size : forall u, length u = N -> length (solve precond u) = N.
Hypothesis rhs_size : length rhs = N.

Local Abbreviation body := (minres_body mat rhs precond).
Local Abbreviation loop := (minres_loop mat rhs precond).

Lemma length_zipWith (f : S -> S -> S) (u v : VectorType S) (k : nat) :
  length u = k -> length v = k -> length (zipWith f u v) = k.
Proof.
  revert k v. induction u as [|a u IH]; intros k v Hu Hv; destruct v as [|b v];
    simpl in *; try congruence.
  destruct k as [|k]; [discriminate|]. f_equal. apply IH; congruence.
Qed.

Lemma length_vsub (u v : VectorType S) :
  length u = N -> length v = N -> length (vsub u v) = N.
Proof. apply length_zipWith. Qed.

Lemma length_vadd (u v : VectorType S) :
  length u = N -> length v = N -> length (vadd u v) = N.
Proof. apply length_zipWith. Qed.

Lemma length_vscale (a : S) (u : VectorType S) :
  length u = N -> length (vscale a u) = N.
Proof. intros Hu. unfold vscale. rewrite length_map. exact Hu. Qed.

Lemma length_vdiv (u : VectorType S) (a : S) :
  length u = N -> length (vdiv u a) = N.
Proof. intros Hu. unfold vdiv. rewrite length_map. exact Hu. Qed.

#[local] Hint Resolve length_vsub length_vadd length_vscale length_vdiv
  mat_square solve_size rhs_size : dims.

(** A pass keeps the dimension of every vector it will read again, and
    calls the matrix and the preconditioner with vectors of that
    dimension. *)
Lemma minres_body_dims tol_error (st : LoopState S) :
  dims N st ->
  dims N (fst (value (body tol_error st)))
  /\ Forall (sized N) (trace (body tol_error st)).
Proof.
  intros (Hx & Hv & Hvn & Hwn & Hpo & Hp).
  unfold minres_body, lanczos, mat_times, precond_solve, bind, tell, ret, value, trace,
    dims.
  simpl.
  match goal with |- context [if ?b then _ else _] => destruct b end;
    simpl; (split; [repeat split | repeat constructor]); simpl; auto 20 with dims.
Qed.

Lemma minres_loop_dims fuel maxIters tol_error (st : LoopState S) :
  dims N st ->
  (forall st', value (loop fuel maxIters tol_error st) = Some st' -> dims N st')
  /\ Forall (sized N) (trace (loop fuel maxIters tol_error st)).
Proof.
  revert st. induction fuel as [|fuel IH]; intros st Hst; rewrite minres_loop_unfold;
    destruct (n st <? maxIters)%Z;
    try (split; [intros st' Hv; inversion Hv; subst; assumption | constructor]).
  - rewrite value_bind, trace_bind.
    destruct (minres_body_dims tol_error st Hst) as [Hst1 Htr1].
    destruct (snd (value (body tol_error st))).
    + split.
      * intros st' Hv. inversion Hv; subst. exact Hst1.
      * apply Forall_app. split; [exact Htr1 | constructor].
    + destruct (IH (fst (value (body tol_error st))) Hst1) as [Hst' Htr'].
      split; [exact Hst'|]. apply Forall_app. split; assumption.
Qed.

Lemma minres_init_dims junk (x0 : VectorType S) :
  cols mat = N -> length x0 = N -> length (u_p junk) = N ->
  dims N (value (minres_init mat rhs precond junk x0))
  /\ Forall (sized N) (trace (minres_init mat rhs precond junk x0)).
Proof.
  intros Hc Hx Hp.
  unfold minres_init, mat_times, precond_solve, bind, ret, value, trace, dims, Zero.
  simpl. rewrite !repeat_length, Hc.
  split; [repeat split | repeat constructor]; simpl; auto 20 with dims.
Qed.
End Dimensions.

(** For a matrix and a preconditioner that map vectors of [N = mat.cols()]
    coefficients to vectors of [N] coefficients, a right-hand side and a
    guess of [N] coefficients (and the [N] coefficients allocated for
    [p]), the kernel calls both only with vectors of [N] coefficients and
    returns an [x] of [N] coefficients. *)
Theorem minres_dimensions
  {S : Type} `{RealScalar S}
  (mat : MatrixType S) (rhs : VectorType S) (precond : Preconditioner S)
  (junk : Indeterminate S) (x0 : VectorType S) (iters : Z) (tol_error : S) :
  (forall u, length u = cols mat -> length (times mat u) = cols mat) ->
  (forall u, length u = cols mat -> length (solve precond u) = cols mat) ->
  length rhs = cols mat ->
  length x0 = cols mat ->
  length (u_p junk) = cols mat ->
  exists r,
    value (minres mat rhs precond junk x0 iters tol_error) = Some r
    /\ length (x_out r) = cols mat
    /\ Forall (sized (cols mat)) (trace (minres mat rhs precond junk x0 iters tol_error)).
Proof.
  intros Hmat Hsolve Hrhs Hx Hp.
  destruct (minres_init_dims mat rhs precond (cols mat) Hmat Hsolve Hrhs junk x0
              eq_refl Hx Hp) as [Hst0 Htr0].
  destruct (minres_loop_dims mat rhs precond (cols mat) Hmat Hsolve Hrhs
              (Z.to_nat iters) iters tol_error _ Hst0) as [Hst' Htr'].
  destruct (minres_returns mat rhs precond junk x0 iters tol_error) as [r Hr].
  exists r. split; [exact Hr|].
  rewrite minres_value in Hr. rewrite minres_trace.
  destruct (value (minres_loop mat rhs precond (Z.to_nat iters) iters tol_error
                     (value (minres_init mat rhs precond junk x0)))) as [st'|];
    [|discriminate Hr].
  injection Hr as <-.
  split.
  - destruct (Hst' st' eq_refl) as (Hlen & _). exact Hlen.
  - constructor; [exact Hx|]. apply Forall_app. split; assumption.
Qed.

(** Three passes allowed on the 2x2 system [[0 1] [1 0]] x = (2, 0). *)
Lemma minres_dimensions_witness :
  exists r,
    value (minres Inputs.swap2 [2; 0]%float Inputs.identity (Inputs.memory 2 0 0)
                  [0; 0]%float 3 Inputs.tol) = Some r
    /\ length (x_out r) = cols Inputs.swap2
    /\ Forall (sized (cols Inputs.swap2))
         (trace (minres Inputs.swap2 [2; 0]%float Inputs.identity (Inputs.memory 2 0 0)
                        [0; 0]%float 3 Inputs.tol)).
Proof.
  apply (minres_dimensions Inputs.swap2 [2; 0]%float Inputs.identity
           (Inputs.memory 2 0 0) [0; 0]%float 3 Inputs.tol).
  - intros [|a [|b [|d u]]] Hu; try discriminate Hu; reflexivity.
  - intros u Hu. exact Hu.
  - reflexivity.
  - reflexivity.
  - reflexivity.
Defined.

(** ** The wrapper, column by column *)

Section WrapperColumns.
Context {S : Type} `{RealScalar S}.
Local Open Scope scalar_scope.
Variable slv : Solver S.
Variable junk : nat -> Indeterminate S.
Variable b : Columns (S := S).

(** The kernel call the wrapper makes for column [j] when the destination
    holds [u] there. *)
Local Abbreviation column_call j u :=
  (minres (mp_matrix slv) (col b j) (m_preconditioner slv) (junk j) u
          (maxIterations slv) (m_tolerance slv)).

Lemma length_set_col (m : Columns) (j : nat) (u : VectorType S) :
  length (set_col m j u) = length m.
Proof.
  revert j. induction m as [|a m IH]; intros [|j]; simpl; auto.
Qed.

Lemma col_set_col_same (m : Columns) (j : nat) (u : VectorType S) :
  (j < length m)%nat -> col (set_col m j u) j = u.
Proof.
  unfold col. revert j. induction m as [|a m IH]; intros [|j] Hj; simpl in *;
    try lia; auto.
  apply IH. lia.
Qed.

(** Solving for the columns [js] replaces each of them by what the kernel
    returns for it from the column the destination held, and leaves the
    other columns alone. *)
Lemma solve_columns_frame (js : list nat) (m : Columns) its err :
  NoDup js ->
  exists m' its' err',
    value (solve_columns slv junk b js m its err) = Some (m', its', err')
    /\ length m' = length m
    /\ (forall j, In j js -> (j < length m)%nat ->
          exists r, value (column_call j (col m j)) = Some r /\ col m' j = x_out r)
    /\ (forall j, ~ In j js -> col m' j = col m j).
Proof.
  revert m its err. induction js as [|j js IH]; intros m its err Hnd.
  - exists m, its, err. repeat split; auto. intros j [].
  - inversion Hnd as [|? ? Hnotin Hnd']; subst.
    cbn [solve_columns]. rewrite value_bind.
    destruct (minres_returns (mp_matrix slv) (col b j) (m_preconditioner slv)
                (junk j) (col m j) (maxIterations slv) (m_tolerance slv)) as [r Hr].
    rewrite Hr.
    destruct (IH (set_col m j (x_out r)) (iters_out r) (tol_error_out r) Hnd')
      as (m' & its' & err' & Hv & Hlen & Hin & Hout).
    exists m', its', err'. split; [exact Hv|].
    split; [rewrite Hlen; apply length_set_col|].
    split.
    + intros j' [<-|Hj'] Hlt.
      * exists r. split; [exact Hr|].
        rewrite (Hout j Hnotin). apply col_set_col_same. exact Hlt.
      * destruct (Hin j' Hj') as (r' & Hr' & Hc).
        { rewrite length_set_col. exact Hlt. }
        exists r'. rewrite col_set_col_other in Hr' by (intros ->; contradiction).
        split; assumption.
    + intros j' Hj'. rewrite Hout by (intros Hi; apply Hj'; right; exact Hi).
      apply col_set_col_other. intros ->. apply Hj'. left. reflexivity.
Qed.

(** The iteration count and the error the loop over the columns ends with
    are those of its last kernel call. *)
Lemma solve_columns_last (js : list nat) (jl : nat) (m : Columns) its err :
  value (solve_columns slv junk b (js ++ [jl]) m its err)
  = match value (solve_columns slv junk b js m its err) with
    | None => None
    | Some (m1, _, _) =>
        match value (column_call jl (col m1 jl)) with
        | None => None
        | Some r => Some (set_col m1 jl (x_out r), iters_out r, tol_error_out r)
        end
    end.
Proof.
  revert m its err. induction js as [|j js IH]; intros m its err.
  - cbn [app solve_columns]. rewrite value_bind.
    unfold value. cbn [ret fst].
    destruct (fst (column_call jl (col m jl))); reflexivity.
  - cbn [app solve_columns]. rewrite !value_bind.
    destruct (value (column_call j (col m j))) as [r|]; [apply IH | reflexivity].
Qed.
End WrapperColumns.

(** [_solveWithGuess] solves column by column: when the destination has a
    column for each column of [b], column [j] of the result is what the
    kernel returns for [b.col(j)] started from column [j] of the
    destination, whatever the other columns hold, and the columns beyond
    those of [b] are left as they were. *)
Theorem _solveWithGuess_columns
  {S : Type} `{RealScalar S}
  (slv : Solver S) (junk : nat -> Indeterminate S) (b x : Columns) :
  (length b <= length x)%nat ->
  exists x' slv',
    value (_solveWithGuess slv junk b x) = Some (x', slv')
    /\ length x' = length x
    /\ (forall j, (j < length b)%nat ->
          exists r,
            value (minres (mp_matrix slv) (col b j) (m_preconditioner slv) (junk j)
                          (col x j) (maxIterations slv) (m_tolerance slv)) = Some r
            /\ col x' j = x_out r)
    /\ (forall j, (length b <= j)%nat -> col x' j = col x j).
Proof.
  intros Hlen.
  destruct (solve_columns_frame slv junk b (seq 0 (length b)) x
              (maxIterations slv) (m_tolerance slv) (seq_NoDup _ _))
    as (x' & its' & err' & Hv & Hl & Hin & Hout).
  unfold _solveWithGuess. rewrite value_bind, Hv.
  eexists x', _. split; [reflexivity|]. split; [exact Hl|]. split.
  - intros j Hj. apply Hin; [apply in_seq; lia | lia].
  - intros j Hj. apply Hout. rewrite in_seq. lia.
Qed.

(** Two right-hand sides for [[2]] x = b, a destination of two columns. *)
Lemma _solveWithGuess_columns_witness :
  exists x' slv',
    value (_solveWithGuess
             {| mp_matrix := Inputs.scalar1 2; m_preconditioner := Inputs.identity;
                maxIterations := 1; m_tolerance := Inputs.tol; m_error := 0%float;
                m_iterations := 0; m_info := Success; m_isInitialized := false |}
             (fun _ => Inputs.memory 1 0 0)
             [[2]%float; [4]%float] [[0]%float; [1]%float])
    = Some (x', slv')
    /\ length x' = length [[0]%float; [1]%float]
    /\ (forall j, (j < length [[2]%float; [4]%float])%nat ->
          exists r,
            value (minres (Inputs.scalar1 2) (col [[2]%float; [4]%float] j)
                          Inputs.identity (Inputs.memory 1 0 0)
                          (col [[0]%float; [1]%float] j) 1 Inputs.tol) = Some r
            /\ col x' j = x_out r)
    /\ (forall j, (length [[2]%float; [4]%float] <= j)%nat ->
          col x' j = col [[0]%float; [1]%float] j).
Proof.
  apply (_solveWithGuess_columns
           {| mp_matrix := Inputs.scalar1 2; m_preconditioner := Inputs.identity;
              maxIterations := 1; m_tolerance := Inputs.tol; m_error := 0%float;
              m_iterations := 0; m_info := Success; m_isInitialized := false |}
           (fun _ => Inputs.memory 1 0 0)
           [[2]%float; [4]%float] [[0]%float; [1]%float]).
  simpl. lia.
Defined.

(** The error and the verdict after the loop over the columns are those of
    the last kernel call. *)
Lemma _solveWithGuess_last_error
  {S : Type} `{RealScalar S}
  (slv : Solver S) (junk : nat -> Indeterminate S)
  (b' : Columns) (bl : VectorType S) (x : Columns) :
  exists r x' slv',
    value (minres (mp_matrix slv) bl (m_preconditioner slv) (junk (length b'))
                  (col x (length b')) (maxIterations slv) (m_tolerance slv)) = Some r
    /\ value (_solveWithGuess slv junk (b' ++ [bl]) x) = Some (x', slv')
    /\ m_error slv' = tol_error_out r
    /\ m_info slv' = (if s_le (tol_error_out r) (m_tolerance slv)
                      then Success else NoConvergence).
Proof.
  destruct (minres_returns (mp_matrix slv) bl (m_preconditioner slv) (junk (length b'))
              (col x (length b')) (maxIterations slv) (m_tolerance slv)) as [r Hr].
  destruct (solve_columns_frame slv junk (b' ++ [bl]) (seq 0 (length b')) x
              (maxIterations slv) (m_tolerance slv) (seq_NoDup _ _))
    as (x1 & its1 & err1 & Hv & _ & _ & Hout).
  assert (Hcol : col x1 (length b') = col x (length b')).
  { apply Hout. rewrite in_seq. lia. }
  assert (Hbl : col (b' ++ [bl]) (length b') = bl).
  { unfold col. rewrite app_nth2 by lia. rewrite Nat.sub_diag. reflexivity. }
  exists r. unfold _solveWithGuess. rewrite value_bind.
  rewrite length_app. cbn [length]. rewrite Nat.add_1_r, seq_S. cbn [Nat.add].
  rewrite solve_columns_last, Hv, Hcol, Hbl, Hr.
  do 2 eexists. cbn [ret value fst option_map].
  repeat split; reflexivity.
Qed.

(** After [_solveWithGuess] for one or more right-hand sides, the status
    the solver holds is that of the last column alone: [m_iterations] and
    [m_error] are what the kernel returned for it, [m_info] is [Success]
    exactly when that error is at most the tolerance, and the solver is
    marked initialised; what the kernel returned for the earlier columns
    is overwritten. *)
Theorem _solveWithGuess_status
  {S : Type} `{RealScalar S}
  (slv : Solver S) (junk : nat -> Indeterminate S)
  (b' : Columns) (bl : VectorType S) (x : Columns) :
  exists r x' slv',
    value (minres (mp_matrix slv) bl (m_preconditioner slv) (junk (length b'))
                  (col x (length b')) (maxIterations slv) (m_tolerance slv)) = Some r
    /\ value (_solveWithGuess slv junk (b' ++ [bl]) x) = Some (x', slv')
    /\ m_iterations slv' = iters_out r
    /\ m_error slv' = tol_error_out r
    /\ m_info slv' = (if s_le (tol_error_out r) (m_tolerance slv)
                      then Success else NoConvergence)
    /\ m_isInitialized slv' = true
    /\ maxIterations slv' = maxIterations slv
    /\ m_tolerance slv' = m_tolerance slv.
Proof.
  destruct (minres_returns (mp_matrix slv) bl (m_preconditioner slv) (junk (length b'))
              (col x (length b')) (maxIterations slv) (m_tolerance slv)) as [r Hr].
  destruct (solve_columns_frame slv junk (b' ++ [bl]) (seq 0 (length b')) x
              (maxIterations slv) (m_tolerance slv) (seq_NoDup _ _))
    as (x1 & its1 & err1 & Hv & _ & _ & Hout).
  assert (Hcol : col x1 (length b') = col x (length b')).
  { apply Hout. rewrite in_seq. lia. }
  assert (Hbl : col (b' ++ [bl]) (length b') = bl).
  { unfold col. rewrite app_nth2 by lia. rewrite Nat.sub_diag. reflexivity. }
  exists r. unfold _solveWithGuess. rewrite value_bind.
  rewrite length_app. cbn [length]. rewrite Nat.add_1_r, seq_S. cbn [Nat.add].
  rewrite solve_columns_last, Hv, Hcol, Hbl, Hr.
  do 2 eexists. cbn [ret value fst option_map].
  repeat split; reflexivity.
Qed.

(** [_solve] does not read the destination: two destinations of the same
    shape give the same result, the same status and the same calls. *)
Theorem _solve_ignores_destination
  {S : Type} `{RealScalar S}
  (slv : Solver S) (junk : nat -> Indeterminate S) (b x x' : Columns) :
  map (@length S) x = map (@length S) x' ->
  _solve slv junk b x = _solve slv junk b x'.
Proof.
  intros Hshape. unfold _solve.
  assert (Hones : map setOnes x = map setOnes x').
  { revert x' Hshape. induction x as [|u x IH]; intros [|u' x'] Hs;
      try discriminate Hs; [reflexivity|].
    cbn [map] in *. injection Hs as Hu Hs. f_equal; [|apply IH; exact Hs].
    clear -Hu. revert u' Hu. induction u as [|a u IHu]; intros [|a' u'] Hu;
      try discriminate Hu; [reflexivity|].
    cbn [setOnes map]. f_equal. apply IHu. injection Hu as Hu. exact Hu. }
  rewrite Hones. reflexivity.
Qed.

(** Two destinations of one column with one coefficient. *)
Lemma _solve_ignores_destination_witness :
  _solve {| mp_matrix := Inputs.scalar1 2; m_preconditioner := Inputs.identity;
            maxIterations := 1; m_tolerance := Inputs.tol; m_error := 0%float;
            m_iterations := 0; m_info := Success; m_isInitialized := false |}
         (fun _ => Inputs.memory 1 0 0) [[2]%float] [[5]%float]
  = _solve {| mp_matrix := Inputs.scalar1 2; m_preconditioner := Inputs.identity;
              maxIterations := 1; m_tolerance := Inputs.tol; m_error := 0%float;
              m_iterations := 0; m_info := Success; m_isInitialized := false |}
           (fun _ => Inputs.memory 1 0 0) [[2]%float] [[7]%float].
Proof.
  apply (_solve_ignores_destination
           {| mp_matrix := Inputs.scalar1 2; m_preconditioner := Inputs.identity;
              maxIterations := 1; m_tolerance := Inputs.tol; m_error := 0%float;
              m_iterations := 0; m_info := Success; m_isInitialized := false |}
           (fun _ => Inputs.memory 1 0 0) [[2]%float] [[5]%float] [[7]%float]).
  reflexivity.
Defined.

(** ** The update of [x] in a pass *)

(** The [x] a pass leaves: the [x] it started with plus [c * eta] times the
    new direction, which is a quotient by [r1]; and the [beta_new] the
    Lanczos step leaves: the square root of the inner product of the new
    vector, orthogonalised against [v], with its preconditioned image. *)
Lemma minres_body_x
  {S : Type} `{RealScalar S}
  (mat : MatrixType S) (rhs : VectorType S) (precond : Preconditioner S)
  (tol_error : S) (st : LoopState S) :
  let Aw := vsub (times mat (w_new st)) (vscale (beta_new st) (v st)) in
  let V := vsub Aw (vscale (dot Aw (w_new st)) (v_new st)) in
  let l := value (lanczos mat precond st) in
  let g := givens (c st) (c_old st) (s st) (s_old st)
                  (l_alpha l) (l_beta l) (l_beta_new l) in
  l_beta_new l = s_sqrt (dot V (solve precond V))
  /\ g_r1 g = s_sqrt (s_add (s_mul (g_r1_hat g) (g_r1_hat g))
                            (s_mul (l_beta_new l) (l_beta_new l)))
  /\ exists P,
       x (fst (value (minres_body mat rhs precond tol_error st)))
       = vadd (x st) (vscale (s_mul (g_c g) (eta st)) (vdiv P (g_r1 g))).
Proof.
  unfold minres_body, lanczos, mat_times, precond_solve, bind, tell, ret, value.
  simpl.
  match goal with |- context [if ?b then _ else _] => destruct b end;
    (split; [reflexivity|]); (split; [reflexivity|]); eexists; reflexivity.
Qed.

(** ** The work of a solve through the wrapper *)

Section WrapperCost.
Context {S : Type} `{RealScalar S}.
Variable slv : Solver S.
Variable junk : nat -> Indeterminate S.
Variable b : Columns (S := S).

(** One kernel call: at most [iters] passes, one product and one solve
    before the loop, two products and one solve in each pass. *)
Lemma minres_cost mat rhs precond jk (x0 : VectorType S) iters tol_error :
  let tr := trace (minres mat rhs precond jk x0 iters tol_error) in
  (passes tr <= Z.to_nat iters)%nat
  /\ mat_applications tr = (1 + 2 * passes tr)%nat
  /\ precond_solves tr = (1 + passes tr)%nat.
Proof.
  cbn zeta. rewrite minres_passes, minres_trace, minres_init_trace.
  destruct (minres_loop_calls mat rhs precond (Z.to_nat iters) iters tol_error
              (value (minres_init mat rhs precond jk x0))) as [Hm Hp].
  destruct (minres_loop_fuel mat rhs precond (Z.to_nat iters) iters tol_error
              (value (minres_init mat rhs precond jk x0)))
    as (st' & _ & Hle & Hmax & Hk).
  { rewrite minres_init_n. lia. }
  rewrite minres_init_n in *.
  unfold mat_applications, precond_solves, passes in *.
  cbn [app]. unfold count in *. cbn [filter is_MatTimes is_PrecondSolve length] in *.
  rewrite Hm, Hp. repeat split; lia.
Qed.

Lemma solve_columns_cost (js : list nat) (m : Columns) its err :
  let tr := trace (solve_columns slv junk b js m its err) in
  (passes tr <= length js * Z.to_nat (maxIterations slv))%nat
  /\ mat_applications tr = (length js + 2 * passes tr)%nat
  /\ precond_solves tr = (length js + passes tr)%nat.
Proof.
  cbn zeta. revert m its err. induction js as [|j js IH]; intros m its err.
  - unfold passes, mat_applications, precond_solves, count.
    cbn [solve_columns ret trace snd filter length]. repeat split; lia.
  - cbn [solve_columns length]. rewrite trace_bind.
    unfold passes, mat_applications, precond_solves in *. rewrite !count_app.
    destruct (minres_cost (mp_matrix slv) (col b j) (m_preconditioner slv) (junk j)
                (col m j) (maxIterations slv) (m_tolerance slv)) as (Hp & Hm & Hs).
    unfold passes, mat_applications, precond_solves in Hp, Hm, Hs.
    rewrite Hm, Hs.
    destruct (minres_returns (mp_matrix slv) (col b j) (m_preconditioner slv) (junk j)
                (col m j) (maxIterations slv) (m_tolerance slv)) as [r ->].
    destruct (IH (set_col m j (x_out r)) (iters_out r) (tol_error_out r))
      as (Hp' & Hm' & Hs').
    rewrite Hm', Hs'. repeat split; lia.
Qed.
End WrapperCost.

(** The work of [_solveWithGuess] is bounded by the configuration: for [k]
    right-hand sides and an iteration bound [maxIterations] it makes at
    most [k * maxIterations] passes in all (none when the bound is
    negative), and with [q] passes made it has applied the matrix
    [k + 2*q] times and solved with the preconditioner [k + q] times. *)
Theorem _solveWithGuess_cost
  {S : Type} `{RealScalar S}
  (slv : Solver S) (junk : nat -> Indeterminate S) (b x : Columns) :
  let tr := trace (_solveWithGuess slv junk b x) in
  (passes tr <= length b * Z.to_nat (maxIterations slv))%nat
  /\ mat_applications tr = (length b + 2 * passes tr)%nat
  /\ precond_solves tr = (length b + passes tr)%nat.
Proof.
  cbn zeta. unfold _solveWithGuess. rewrite trace_bind.
  cbn [ret trace snd]. rewrite app_nil_r.
  pose proof (solve_columns_cost slv junk b (seq 0 (length b)) x
                (maxIterations slv) (m_tolerance slv)) as Hc.
  cbn zeta in Hc. rewrite length_seq in Hc. exact Hc.
Qed.

(** ** Tolerances and right-hand sides that rule out convergence, in [double] *)

(** With a tolerance that is zero or NaN the threshold is a zero or NaN,
    and no squared norm is below it. *)
Lemma threshold2_zero_tol (rhs u : VectorType float) (tol_error : float) :
  is_zero tol_error \/ tol_error = nan ->
  s_lt (squaredNorm u) (threshold2 rhs tol_error) = false.
Proof.
  intros Htol. unfold threshold2, rhsNorm2.
  cbn [s_lt s_mul double_scalar]. rewrite ltb_spec.
  apply SFltb_not_negative_zero; [apply squaredNorm_not_negative|].
  rewrite !mul_spec.
  destruct Htol as [Hz | ->].
  - unfold is_zero in Hz. rewrite eqb_spec, Prim2SF_zero in Hz.
    destruct (Prim2SF tol_error) as [sg|sg| |sg m e]; try destruct sg;
      try discriminate Hz;
      destruct (Prim2SF (squaredNorm rhs)); exact I.
  - change (Prim2SF nan) with S754_nan. exact I.
Qed.

(** With a tolerance that is zero or NaN the kernel never stops early: for
    a budget [iters = k >= 0] it makes all [k] passes and returns [k] as
    the iteration count, however small the residual has become. *)
Theorem minres_zero_tolerance_double
  (mat : MatrixType float) (rhs : VectorType float) (precond : Preconditioner float)
  (junk : Indeterminate float) (x0 : VectorType float) (iters : Z) (tol_error : float) :
  is_zero tol_error \/ tol_error = nan ->
  (0 <= iters)%Z ->
  exists r,
    value (minres mat rhs precond junk x0 iters tol_error) = Some r
    /\ iters_out r = iters
    /\ Z.of_nat (passes (trace (minres mat rhs precond junk x0 iters tol_error))) = iters.
Proof.
  intros Htol Hk.
  destruct (minres_loop_no_break mat rhs precond (Z.to_nat iters) iters tol_error
              (value (minres_init mat rhs precond junk x0)))
    as (st' & Hv & Hn & Hp).
  { intros u. apply threshold2_zero_tol. exact Htol. }
  { rewrite minres_init_n. lia. }
  { rewrite minres_init_n. lia. }
  rewrite minres_init_n in Hp.
  exists (minres_finish rhs st').
  rewrite minres_value, Hv, minres_passes, Hp.
  cbn [option_map minres_finish iters_out].
  split; [reflexivity|]. split; [exact Hn | lia].
Qed.

(** Tolerance zero and a budget of two passes on [[2]] x = (2). *)
Lemma minres_zero_tolerance_double_witness :
  exists r,
    value (minres (Inputs.scalar1 2) [2]%float Inputs.identity (Inputs.memory 1 0 0)
                  [0]%float 2 0%float) = Some r
    /\ iters_out r = 2%Z
    /\ Z.of_nat (passes (trace (minres (Inputs.scalar1 2) [2]%float Inputs.identity
                                       (Inputs.memory 1 0 0) [0]%float 2 0%float)))
       = 2%Z.
Proof.
  apply (minres_zero_tolerance_double (Inputs.scalar1 2) [2]%float Inputs.identity
           (Inputs.memory 1 0 0) [0]%float 2 0%float).
  - left. reflexivity.
  - lia.
Defined.

(** After at least one pass on a zero right-hand side the error written
    back is NaN or plus infinity. *)
Lemma minres_zero_rhs_error
  (mat : MatrixType float) (rhs : VectorType float) (precond : Preconditioner float)
  (junk : Indeterminate float) (x0 : VectorType float) (iters : Z) (tol_error : float) :
  zero_vector rhs ->
  (1 <= iters)%Z ->
  exists r,
    value (minres mat rhs precond junk x0 iters tol_error) = Some r
    /\ (tol_error_out r = nan \/ tol_error_out r = infinity).
Proof.
  intros Hz Hk.
  destruct (minres_loop_residual mat rhs precond (Z.to_nat iters) iters tol_error
              (value (minres_init mat rhs precond junk x0)))
    as (st' & Hv & Hres).
  { rewrite minres_init_n. lia. }
  { left. rewrite minres_init_n. lia. }
  exists (minres_finish rhs st'). rewrite minres_value, Hv.
  split; [reflexivity|].
  cbn [minres_finish tol_error_out]. unfold rhsNorm2.
  rewrite Hres, (squaredNorm_zero rhs Hz). apply sqrt_div_zero.
Qed.

Lemma leb_nan_or_pinf (e t : float) :
  e = nan \/ e = infinity -> t <> infinity -> PrimFloat.leb e t = false.
Proof.
  intros He Ht. rewrite leb_spec.
  destruct He as [-> | ->].
  - change (Prim2SF nan) with S754_nan. reflexivity.
  - change (Prim2SF infinity) with (S754_infinity false).
    destruct (Prim2SF t) as [sg|sg| |sg m e] eqn:E; try reflexivity.
    destruct sg; [reflexivity|].
    exfalso. apply Ht. apply Prim2SF_inj. rewrite E. reflexivity.
Qed.

(** When the last right-hand side is the zero vector, the solver allows at
    least one pass and its tolerance is not plus infinity,
    [_solveWithGuess] reports [NoConvergence], with an error that is NaN or
    plus infinity. *)
Theorem _solveWithGuess_zero_rhs_double
  (slv : Solver float) (junk : nat -> Indeterminate float)
  (b' : Columns) (bl : VectorType float) (x : Columns) :
  zero_vector bl ->
  (1 <= maxIterations slv)%Z ->
  m_tolerance slv <> infinity ->
  exists x' slv',
    value (_solveWithGuess slv junk (b' ++ [bl]) x) = Some (x', slv')
    /\ m_info slv' = NoConvergence
    /\ (m_error slv' = nan \/ m_error slv' = infinity).
Proof.
  intros Hz Hk Ht.
  destruct (_solveWithGuess_last_error slv junk b' bl x)
    as (r & x' & slv' & Hr & Hv & Herr & Hinfo).
  destruct (minres_zero_rhs_error (mp_matrix slv) bl (m_preconditioner slv)
              (junk (length b')) (col x (length b')) (maxIterations slv)
              (m_tolerance slv) Hz Hk) as (r' & Hr' & He).
  rewrite Hr in Hr'. injection Hr' as <-.
  exists x', slv'. split; [exact Hv|]. split.
  - rewrite Hinfo. cbn [s_le double_scalar].
    rewrite (leb_nan_or_pinf _ _ He Ht). reflexivity.
  - rewrite Herr. exact He.
Qed.

(** [[1]] x = (0) through the wrapper, one pass allowed. *)
Lemma _solveWithGuess_zero_rhs_double_witness :
  exists x' slv',
    value (_solveWithGuess
             {| mp_matrix := Inputs.scalar1 1; m_preconditioner := Inputs.identity;
                maxIterations := 1; m_tolerance := Inputs.tol; m_error := 0%float;
                m_iterations := 0; m_info := Success; m_isInitialized := false |}
             (fun _ => Inputs.memory 1 0 0) ([] ++ [[0]%float]) [[1]%float])
    = Some (x', slv')
    /\ m_info slv' = NoConvergence
    /\ (m_error slv' = nan \/ m_error slv' = infinity).
Proof.
  apply (_solveWithGuess_zero_rhs_double
           {| mp_matrix := Inputs.scalar1 1; m_preconditioner := Inputs.identity;
              maxIterations := 1; m_tolerance := Inputs.tol; m_error := 0%float;
              m_iterations := 0; m_info := Success; m_isInitialized := false |}
           (fun _ => Inputs.memory 1 0 0) [] [0]%float [[1]%float]).
  - repeat constructor.
  - simpl. lia.
  - simpl. vm_compute. discriminate.
Defined.

(** ** Breakdown: a residual that is already zero, in [double] *)

Lemma Prim2SF_nan : Prim2SF nan = S754_nan.
Proof. reflexivity. Qed.

Lemma add_nan_l (a : float) : (nan + a)%float = nan.
Proof.
  apply Prim2SF_inj. rewrite add_spec, Prim2SF_nan. reflexivity.
Qed.

Lemma add_nan_r (a : float) : (a + nan)%float = nan.
Proof.
  apply Prim2SF_inj. rewrite add_spec, Prim2SF_nan.
  destruct (Prim2SF a); reflexivity.
Qed.

Lemma sub_nan_r (a : float) : (a - nan)%float = nan.
Proof.
  apply Prim2SF_inj. rewrite sub_spec, Prim2SF_nan.
  destruct (Prim2SF a); reflexivity.
Qed.

Lemma mul_nan_l (a : float) : (nan * a)%float = nan.
Proof.
  apply Prim2SF_inj. rewrite mul_spec, Prim2SF_nan. reflexivity.
Qed.

Lemma mul_nan_r (a : float) : (a * nan)%float = nan.
Proof.
  apply Prim2SF_inj. rewrite mul_spec, Prim2SF_nan.
  destruct (Prim2SF a); reflexivity.
Qed.

Lemma div_nan_r (a : float) : (a / nan)%float = nan.
Proof.
  apply Prim2SF_inj. rewrite div_spec, Prim2SF_nan.
  destruct (Prim2SF a); reflexivity.
Qed.

Lemma sqrt_nan : PrimFloat.sqrt nan = nan.
Proof. reflexivity. Qed.

Lemma zero_or_nan_zero (a : float) : is_zero a -> zero_or_nan a.
Proof.
  unfold is_zero, zero_or_nan. rewrite eqb_spec, Prim2SF_zero.
  destruct (Prim2SF a) as [sg|sg| |sg m e]; try destruct sg; intros Ha;
    try discriminate Ha; exact I.
Qed.

Lemma zero_or_nan_mul (a b : float) : zero_or_nan a -> zero_or_nan (a * b)%float.
Proof.
  unfold zero_or_nan. rewrite mul_spec.
  destruct (Prim2SF a), (Prim2SF b); intros Ha; try contradiction; exact I.
Qed.

Lemma zero_or_nan_add (a b : float) :
  zero_or_nan a -> zero_or_nan b -> zero_or_nan (a + b)%float.
Proof.
  unfold zero_or_nan. rewrite add_spec.
  destruct (Prim2SF a) as [sa|sa| |sa ma ea], (Prim2SF b) as [sb|sb| |sb mb eb];
    intros Ha Hb; try contradiction; try exact I.
  destruct sa, sb; exact I.
Qed.

Lemma zero_or_nan_sqrt (a : float) : zero_or_nan a -> zero_or_nan (PrimFloat.sqrt a).
Proof.
  unfold zero_or_nan. rewrite sqrt_spec.
  destruct (Prim2SF a); intros Ha; try contradiction; exact I.
Qed.

(** Zero divided by zero, and anything involving NaN, is NaN. *)
Lemma zero_or_nan_div (a t : float) :
  zero_or_nan a -> zero_or_nan t -> (a / t)%float = nan.
Proof.
  unfold zero_or_nan. intros Ha Ht.
  apply Prim2SF_inj. rewrite div_spec, Prim2SF_nan.
  destruct (Prim2SF a), (Prim2SF t); try contradiction; reflexivity.
Qed.

Lemma zero_or_nan_fold (l : list float) (acc : float) :
  zero_or_nan acc -> Forall zero_or_nan l -> zero_or_nan (fold_left s_add l acc).
Proof.
  intros Hacc Hl. revert acc Hacc. induction Hl as [|a l Ha _ IH]; intros acc Hacc;
    [exact Hacc|].
  cbn [fold_left]. apply IH. apply zero_or_nan_add; assumption.
Qed.

(** The inner product of a zero vector with any vector is a zero or NaN. *)
Lemma zero_or_nan_dot (u w : VectorType float) :
  zero_vector u -> zero_or_nan (dot u w).
Proof.
  intros Hu. unfold dot, sum.
  assert (Hz : Forall zero_or_nan (zipWith s_mul u w)).
  { revert w. induction Hu as [|a u Ha _ IH]; intros [|b w]; cbn [zipWith];
      constructor; [|apply IH].
    apply zero_or_nan_mul, zero_or_nan_zero. exact Ha. }
  destruct Hz as [|a l Ha Hl]; [exact I|].
  apply zero_or_nan_fold; assumption.
Qed.

Lemma all_nan_vdiv_zero (u : VectorType float) (t : float) :
  zero_vector u -> zero_or_nan t -> all_nan (vdiv u t).
Proof.
  intros Hu Ht. unfold all_nan, vdiv. apply Forall_map.
  eapply Forall_impl; [|exact Hu].
  intros a Ha. apply zero_or_nan_div; [apply zero_or_nan_zero; exact Ha | exact Ht].
Qed.

Lemma all_nan_vdiv_nan (u : VectorType float) : all_nan (vdiv u nan).
Proof.
  unfold all_nan, vdiv. apply Forall_map. apply Forall_forall.
  intros a _. apply div_nan_r.
Qed.

Lemma all_nan_vscale (k : float) (u : VectorType float) :
  all_nan u -> all_nan (vscale k u).
Proof.
  intros Hu. unfold all_nan, vscale. apply Forall_map.
  eapply Forall_impl; [|exact Hu]. intros a ->. apply mul_nan_r.
Qed.

Lemma all_nan_zipWith_r (f : float -> float -> float) (u w : VectorType float) :
  (forall a, f a nan = nan) -> all_nan w -> all_nan (zipWith f u w).
Proof.
  intros Hf Hw. revert u. induction Hw as [|b w -> _ IH]; intros [|a u];
    cbn [zipWith]; constructor; [apply Hf | apply IH].
Qed.

Lemma all_nan_zipWith_l (f : float -> float -> float) (u w : VectorType float) :
  (forall b, f nan b = nan) -> all_nan u -> all_nan (zipWith f u w).
Proof.
  intros Hf Hu. revert w. induction Hu as [|a u -> _ IH]; intros [|b w];
    cbn [zipWith]; constructor; [apply Hf | apply IH].
Qed.

Lemma fold_add_nan (l : list float) : fold_left s_add l nan = nan.
Proof.
  induction l as [|a l IH]; [reflexivity|].
  cbn [fold_left]. cbn [s_add double_scalar]. rewrite add_nan_l. exact IH.
Qed.

(** The inner product of a vector of NaN with a vector is NaN, unless one
    of them is empty. *)
Lemma dot_all_nan (u w : VectorType float) :
  all_nan u -> u <> [] -> w <> [] -> dot u w = nan.
Proof.
  intros Hu Hne Hwe. destruct Hu as [|a u -> Hu]; [contradiction|].
  destruct w as [|b w]; [contradiction|].
  unfold dot, sum. cbn [zipWith]. cbn [s_mul double_scalar].
  rewrite mul_nan_l. apply fold_add_nan.
Qed.

Section Breakdown.
Variable mat : MatrixType float.
Variable rhs : VectorType float.
Variable precond : Preconditioner float.
Variable N : nat.
Hypothesis mat_square : forall u, length u = N -> length (times mat u) = N.
Hypothesis solve_size : forall u, length u = N -> length (solve precond u) = N.

Local Abbreviation body := (minres_body mat rhs precond).
Local Abbreviation loop := (minres_loop mat rhs precond).

Lemma length_not_nil (u : VectorType float) :
  length u = N -> (1 <= N)%nat -> u <> [].
Proof. intros Hu HN ->. simpl in Hu. lia. Qed.

(** A pass that starts with NaN in every coefficient of [v_new] leaves NaN
    in every coefficient of [x]: [beta_new], then [r1], then the new
    direction are NaN. *)
Lemma minres_body_breakdown tol_error (st : LoopState float) :
  dims N st -> all_nan (v_new st) ->
  all_nan (x (fst (value (body tol_error st)))).
Proof.
  intros (Hx & Hv & Hvn & Hwn & Hpo & Hp) Hnan.
  destruct (minres_body_x mat rhs precond tol_error st) as (Hbn & Hr1 & P & HxP).
  rewrite HxP.
  destruct N as [|N'] eqn:HN.
  { destruct (x st); [constructor | discriminate Hx]. }
  apply all_nan_zipWith_r; [exact add_nan_r|]. apply all_nan_vscale.
  set (Aw := vsub (times mat (w_new st)) (vscale (beta_new st) (v st))) in *.
  set (V := vsub Aw (vscale (dot Aw (w_new st)) (v_new st))) in *.
  assert (HAw : length Aw = Datatypes.S N').
  { apply length_vsub; [apply mat_square; exact Hwn | apply length_vscale; exact Hv]. }
  assert (HV : length V = Datatypes.S N').
  { apply length_vsub; [exact HAw | apply length_vscale; exact Hvn]. }
  assert (HVnan : all_nan V).
  { apply all_nan_zipWith_r; [exact sub_nan_r|]. apply all_nan_vscale. exact Hnan. }
  assert (Hdot : dot V (solve precond V) = nan).
  { apply dot_all_nan; [exact HVnan | |].
    - intros E. rewrite E in HV. discriminate HV.
    - intros E. pose proof (solve_size V HV) as Hs. rewrite E in Hs. discriminate Hs. }
  rewrite Hr1, Hbn, Hdot. cbn [s_sqrt s_add s_mul double_scalar].
  rewrite sqrt_nan, mul_nan_l, add_nan_r, sqrt_nan.
  apply all_nan_vdiv_nan.
Qed.

(** Once [x] holds NaN in every coefficient it keeps them. *)
Lemma minres_body_keeps_nan tol_error (st : LoopState float) :
  all_nan (x st) -> all_nan (x (fst (value (body tol_error st)))).
Proof.
  intros Hnan.
  destruct (minres_body_x mat rhs precond tol_error st) as (_ & _ & P & HxP).
  rewrite HxP. apply all_nan_zipWith_l; [exact add_nan_l | exact Hnan].
Qed.

Lemma minres_loop_keeps_nan fuel maxIters tol_error (st st' : LoopState float) :
  all_nan (x st) ->
  value (loop fuel maxIters tol_error st) = Some st' ->
  all_nan (x st').
Proof.
  revert st. induction fuel as [|fuel IH]; intros st Hnan; rewrite minres_loop_unfold;
    destruct (n st <? maxIters)%Z; intros Hv;
    try (inversion Hv; subst; assumption).
  rewrite value_bind in Hv.
  pose proof (minres_body_keeps_nan tol_error st Hnan) as H1.
  destruct (snd (value (body tol_error st))).
  - inversion Hv; subst. exact H1.
  - exact (IH _ H1 Hv).
Qed.

Lemma minres_loop_breakdown fuel maxIters tol_error (st st' : LoopState float) :
  (n st < maxIters)%Z ->
  dims N st -> all_nan (v_new st) ->
  value (loop (Datatypes.S fuel) maxIters tol_error st) = Some st' ->
  all_nan (x st').
Proof.
  intros Hlt Hd Hnan. rewrite minres_loop_unfold.
  destruct (Z.ltb_spec (n st) maxIters) as [_|]; [|lia].
  rewrite value_bind. intros Hv.
  pose proof (minres_body_breakdown tol_error st Hd Hnan) as H1.
  destruct (snd (value (body tol_error st))).
  - inversion Hv; subst. exact H1.
  - exact (minres_loop_keeps_nan fuel maxIters tol_error _ st' H1 Hv).
Qed.
End Breakdown.

(** Breakdown on an exact guess.  When the guess already solves the system
    (every coefficient of [rhs - mat*x] is a zero) and at least one pass is
    allowed, the kernel divides the zero residual by its zero norm and
    returns NaN in every coefficient of [x]: the solution it was given is
    lost.  The dimensions are those of a well-formed call. *)
Theorem minres_exact_guess_double
  (mat : MatrixType float) (rhs : VectorType float) (precond : Preconditioner float)
  (junk : Indeterminate float) (x0 : VectorType float) (iters : Z) (tol_error : float) :
  (forall u, length u = cols mat -> length (times mat u) = cols mat) ->
  (forall u, length u = cols mat -> length (solve precond u) = cols mat) ->
  length rhs = cols mat ->
  length x0 = cols mat ->
  length (u_p junk) = cols mat ->
  zero_vector (vsub rhs (times mat x0)) ->
  (1 <= iters)%Z ->
  exists r,
    value (minres mat rhs precond junk x0 iters tol_error) = Some r
    /\ all_nan (x_out r).
Proof.
  intros Hmat Hsolve Hrhs Hx Hp Hres Hk.
  destruct (minres_init_dims mat rhs precond (cols mat) Hmat Hsolve Hrhs junk x0
              eq_refl Hx Hp) as [Hd0 _].
  assert (Hnan0 : all_nan (v_new (value (minres_init mat rhs precond junk x0)))).
  { unfold minres_init, mat_times, precond_solve, bind, ret, value. simpl.
    apply all_nan_vdiv_zero; [exact Hres|].
    apply zero_or_nan_sqrt, zero_or_nan_dot. exact Hres. }
  destruct (minres_returns mat rhs precond junk x0 iters tol_error) as [r Hr].
  exists r. split; [exact Hr|].
  rewrite minres_value in Hr.
  destruct (Z.to_nat iters) as [|fuel] eqn:Hf; [lia|].
  destruct (value (minres_loop mat rhs precond (Datatypes.S fuel) iters tol_error
                     (value (minres_init mat rhs precond junk x0)))) as [st'|] eqn:Hv;
    [|discriminate Hr].
  injection Hr as <-. cbn [minres_finish x_out].
  apply (minres_loop_breakdown mat rhs precond (cols mat) Hmat Hsolve fuel iters
           tol_error (value (minres_init mat rhs precond junk x0)) st');
    try assumption.
  rewrite minres_init_n. lia.
Qed.

(** [[2]] x = (2) started from its solution [x = (1)], one pass allowed. *)
Lemma minres_exact_guess_double_witness :
  exists r,
    value (minres (Inputs.scalar1 2) [2]%float Inputs.identity (Inputs.memory 1 0 0)
                  [1]%float 1 Inputs.tol) = Some r
    /\ all_nan (x_out r).
Proof.
  apply (minres_exact_guess_double (Inputs.scalar1 2) [2]%float Inputs.identity
           (Inputs.memory 1 0 0) [1]%float 1 Inputs.tol).
  - intros u Hu. cbn. rewrite length_map. exact Hu.
  - intros u Hu. exact Hu.
  - reflexivity.
  - reflexivity.
  - reflexivity.
  - vm_compute. repeat constructor.
  - lia.
Defined.

(** ** The reported error and the convergence test, in exact arithmetic *)

Lemma fold_squares_nonneg_real (l : list R) (acc : R) :
  (0 <= acc)%R -> (0 <= fold_left s_add (map (fun a => s_mul a a) l) acc)%R.
Proof.
  revert acc. induction l as [|a l IH]; intros acc Hacc; [exact Hacc|].
  cbn [map fold_left]. apply IH. cbn [s_add s_mul real_scalar]. nra.
Qed.

Lemma squaredNorm_nonneg_real (u : VectorType R) : (0 <= squaredNorm u)%R.
Proof.
  unfold squaredNorm, sum. destruct u as [|a u]; [cbn; lra|].
  cbn [map]. apply fold_squares_nonneg_real. cbn [s_mul real_scalar]. nra.
Qed.

Lemma Rltb_true (a b : R) : Rltb a b = true <-> (a < b)%R.
Proof.
  unfold Rltb. destruct (Rlt_dec a b); split; intros; auto; discriminate.
Qed.

Lemma Rltb_false (a b : R) : Rltb a b = false <-> (b <= a)%R.
Proof.
  unfold Rltb. destruct (Rlt_dec a b); split; intros; auto; try discriminate; lra.
Qed.

(** Over the reals, with a tolerance that is not negative, a right-hand
    side that is not zero and a budget of at least one pass, the error the
    kernel reports is below the tolerance exactly when the iteration count
    it returns is below the budget: the two outputs agree on whether the
    run converged. *)
Theorem minres_error_agrees_with_count_real
  (mat : MatrixType R) (rhs : VectorType R) (precond : Preconditioner R)
  (junk : Indeterminate R) (x0 : VectorType R) (iters : Z) (tol_error : R) :
  (0 <= tol_error)%R ->
  (1 <= iters)%Z ->
  (0 < squaredNorm rhs)%R ->
  exists r,
    value (minres mat rhs precond junk x0 iters tol_error) = Some r
    /\ ((iters_out r < iters)%Z <-> (tol_error_out r < tol_error)%R).
Proof.
  intros Htol Hk Hb.
  destruct (minres_loop_outcome mat rhs precond (Z.to_nat iters) iters tol_error
              (value (minres_init mat rhs precond junk x0)))
    as (st' & Hv & Hres & Hout).
  { rewrite minres_init_n. lia. }
  { left. rewrite minres_init_n. lia. }
  exists (minres_finish rhs st'). rewrite minres_value, Hv.
  split; [reflexivity|].
  cbn [minres_finish iters_out tol_error_out]. unfold rhsNorm2.
  unfold below_threshold, threshold2, rhsNorm2 in Hout.
  rewrite <- Hres in Hout.
  pose proof (squaredNorm_nonneg_real (vsub (times mat (x st')) rhs)) as Hq.
  rewrite <- Hres in Hq.
  cbn [s_lt s_mul s_sqrt s_div real_scalar] in *.
  set (q := residualNorm2 st') in *. set (b2 := squaredNorm rhs) in *.
  assert (Hsq : sqrt (tol_error * tol_error) = tol_error) by (apply sqrt_square; exact Htol).
  assert (Hdiv0 : (0 <= q / b2)%R).
  { apply Rmult_le_pos; [exact Hq|]. left. apply Rinv_0_lt_compat. exact Hb. }
  destruct Hout as [[Hn Ht] | [Hn Ht]].
  - apply Rltb_true in Ht.
    split; [intros _ | intros _; exact Hn].
    rewrite <- Hsq. apply sqrt_lt_1_alt. split; [exact Hdiv0|].
    apply (Rmult_lt_reg_r b2); [exact Hb|].
    replace (q / b2 * b2)%R with q by (field; lra). exact Ht.
  - apply Rltb_false in Ht.
    split; [intros Hlt; lia | intros Herr; exfalso].
    assert (Hle : (tol_error <= sqrt (q / b2))%R).
    { rewrite <- Hsq at 1. apply sqrt_le_1_alt.
      apply (Rmult_le_reg_r b2); [exact Hb|].
      replace (q / b2 * b2)%R with q by (field; lra). exact Ht. }
    lra.
Qed.

(** One pass allowed on [[1]] x = (1) with the identity preconditioner and
    tolerance 1. *)
Lemma minres_error_agrees_with_count_real_witness :
  exists r,
    value (minres {| cols := 1; times := fun u : VectorType R => u |} [1%R]
                  {| solve := fun u : VectorType R => u |}
                  {| u_v_old := [0%R]; u_w := [0%R]; u_p := [0%R];
                     u_beta := 0%R; u_residualNorm2 := 0%R |}
                  [0%R] 1 1%R) = Some r
    /\ ((iters_out r < 1)%Z <-> (tol_error_out r < 1)%R).
Proof.
  apply (minres_error_agrees_with_count_real
           {| cols := 1; times := fun u : VectorType R => u |} [1%R]
           {| solve := fun u : VectorType R => u |}
           {| u_v_old := [0%R]; u_w := [0%R]; u_p := [0%R];
              u_beta := 0%R; u_residualNorm2 := 0%R |}
           [0%R] 1 1%R).
  - lra.
  - lia.
  - cbn. lra.
Defined.

(** ** When the loop stops, and what it counts *)

Section LoopDecision.
Context {S : Type} `{RealScalar S}.
Local Open Scope scalar_scope.
Variable mat : MatrixType S.
Variable rhs : VectorType S.
Variable precond : Preconditioner S.
Variable tol_error : S.

Local Abbreviation body := (minres_body mat rhs precond).
Local Abbreviation loop := (minres_loop mat rhs precond).
Local Abbreviation fails := (fun u => below_threshold mat rhs tol_error u = false).

(** A pass adds one iterate, the [x] it leaves. *)
Lemma iterates_body (st : LoopState S) (rest : list (Event S)) :
  iterates (trace (body tol_error st) ++ rest)
  = x (fst (value (body tol_error st))) :: iterates rest.
Proof.
  destruct (minres_body_trace mat rhs precond tol_error st) as [u ->]. reflexivity.
Qed.

Lemma passes_body (st : LoopState S) (rest : list (Event S)) :
  passes (trace (body tol_error st) ++ rest) = Datatypes.S (passes rest).
Proof.
  destruct (minres_body_trace mat rhs precond tol_error st) as [u ->]. reflexivity.
Qed.

(** A pass leaves through [break] exactly when the [x] it leaves is below
    the threshold. *)
Lemma minres_body_decides (st : LoopState S) :
  snd (value (body tol_error st))
  = below_threshold mat rhs tol_error (x (fst (value (body tol_error st)))).
Proof.
  destruct (minres_body_break mat rhs precond tol_error st) as [Hres Hbrk].
  rewrite Hres in Hbrk. exact Hbrk.
Qed.

Lemma last_cons (A : Type) (a d : A) (l : list A) : last (a :: l) d = last l a.
Proof.
  revert a d. induction l as [|b l IH]; intros a d; [reflexivity|].
  change (last (a :: b :: l) d) with (last (b :: l) d).
  rewrite !IH. reflexivity.
Qed.

(** The loop, from a state with [n <= maxIters]: the body is entered once
    for each iterate; the loop goes on as long as the iterates fail the
    test and [n] is below [maxIters], advancing [n] once per failed test;
    it stops at the first iterate that passes, leaving [n] as it was before
    that pass; the [x] it ends with is the last iterate. *)
Lemma minres_loop_decision fuel maxIters (st : LoopState S) :
  (n st <= maxIters)%Z ->
  (maxIters - n st <= Z.of_nat fuel)%Z ->
  exists st',
    value (loop fuel maxIters tol_error st) = Some st'
    /\ passes (trace (loop fuel maxIters tol_error st))
       = length (iterates (trace (loop fuel maxIters tol_error st)))
    /\ ((n st' = maxIters
         /\ Forall fails (iterates (trace (loop fuel maxIters tol_error st)))
         /\ Z.of_nat (length (iterates (trace (loop fuel maxIters tol_error st))))
            = (maxIters - n st)%Z
         /\ x st' = last (iterates (trace (loop fuel maxIters tol_error st))) (x st))
        \/ ((n st' < maxIters)%Z
            /\ exists xs0 xl,
                 iterates (trace (loop fuel maxIters tol_error st)) = xs0 ++ [xl]
                 /\ Forall fails xs0
                 /\ below_threshold mat rhs tol_error xl = true
                 /\ x st' = xl
                 /\ n st' = (n st + Z.of_nat (length xs0))%Z)).
Proof.
  revert st. induction fuel as [|fuel IH]; intros st Hle Hfuel.
  - rewrite minres_loop_exit by lia. exists st. cbn.
    split; [reflexivity|]. split; [reflexivity|]. left.
    repeat split; try constructor; lia.
  - destruct (Z.ltb_spec (n st) maxIters) as [Hlt|Hge].
    2:{ rewrite minres_loop_exit by lia. exists st. cbn.
        split; [reflexivity|]. split; [reflexivity|]. left.
        repeat split; try constructor; lia. }
    rewrite minres_loop_unfold.
    destruct (Z.ltb_spec (n st) maxIters) as [_|]; [|lia].
    rewrite value_bind, trace_bind, iterates_body, passes_body.
    pose proof (minres_body_n mat rhs precond tol_error st) as Hn.
    pose proof (minres_body_decides st) as Hd.
    set (st1 := fst (value (body tol_error st))) in *.
    destruct (snd (value (body tol_error st))).
    + exists st1. cbn [ret value trace fst snd iterates passes count filter length].
      split; [reflexivity|]. split; [reflexivity|]. right.
      split; [lia|]. exists [], (x st1). cbn [app length].
      repeat split; try constructor; auto; lia.
    + destruct (IH st1) as (st' & Hv & Hp & Hout); [lia | lia |].
      exists st'. split; [exact Hv|]. split; [cbn [length]; rewrite Hp; reflexivity|].
      destruct Hout as [(Hn' & Hall & Hlen & Hx) | (Hn' & xs0 & xl & Hxs & Hall & Ht & Hx & Hcount)].
      * left. split; [exact Hn'|]. split; [constructor; [symmetry; exact Hd | exact Hall]|].
        split; [cbn [length]; lia|]. rewrite last_cons. exact Hx.
      * right. split; [exact Hn'|]. exists (x st1 :: xs0), xl.
        rewrite Hxs. split; [reflexivity|].
        split; [constructor; [symmetry; exact Hd | exact Hall]|].
        split; [exact Ht|]. split; [exact Hx|]. cbn [length]. lia.
Qed.
End LoopDecision.

(** The iterates of a whole run are those of its loop. *)
Lemma iterates_minres
  {S : Type} `{RealScalar S}
  (mat : MatrixType S) (rhs : VectorType S) (precond : Preconditioner S)
  (junk : Indeterminate S) (x0 : VectorType S) (iters : Z) (tol_error : S) :
  iterates (trace (minres mat rhs precond junk x0 iters tol_error))
  = iterates (trace (minres_loop mat rhs precond (Z.to_nat iters) iters tol_error
                       (value (minres_init mat rhs precond junk x0)))).
Proof.
  rewrite minres_trace, minres_init_trace. reflexivity.
Qed.

Lemma last_in_nonempty (A : Type) (l : list A) (d : A) : l <> [] -> In (last l d) l.
Proof.
  induction l as [|a l IH]; intros Hne; [contradiction|].
  destruct l as [|b l]; [left; reflexivity|].
  right. apply IH. discriminate.
Qed.

(** ** The iteration budget and the count written back *)

(** C5, as the code has it.  For an iteration bound [iters = k >= 0] the
    kernel returns and the loop body is entered at most [k] times.  The
    count written back to [iters] is the final [n], at most [k]: the number
    of passes that ran to the end of the body.  When the loop ends at the
    bound that is the number of passes made, [k], and the returned [x]
    fails the test unless no pass was made; when the last pass leaves
    through [break], the returned [x] having passed the test, it is one
    less than the number of passes made. *)
Theorem minres_iteration_count
  {S : Type} `{RealScalar S}
  (mat : MatrixType S) (rhs : VectorType S) (precond : Preconditioner S)
  (junk : Indeterminate S) (x0 : VectorType S) (iters : Z) (tol_error : S) :
  (0 <= iters)%Z ->
  exists r,
    value (minres mat rhs precond junk x0 iters tol_error) = Some r
    /\ (Z.of_nat (passes (trace (minres mat rhs precond junk x0 iters tol_error)))
        <= iters)%Z
    /\ (0 <= iters_out r <= iters)%Z
    /\ ((iters_out r = iters
         /\ Z.of_nat (passes (trace (minres mat rhs precond junk x0 iters tol_error)))
            = iters_out r
         /\ (iters = 0%Z \/ below_threshold mat rhs tol_error (x_out r) = false))
        \/ ((iters_out r < iters)%Z
            /\ Z.of_nat (passes (trace (minres mat rhs precond junk x0 iters tol_error)))
               = (iters_out r + 1)%Z
            /\ below_threshold mat rhs tol_error (x_out r) = true)).
Proof.
  intros Hk.
  destruct (minres_loop_decision mat rhs precond tol_error (Z.to_nat iters) iters
              (value (minres_init mat rhs precond junk x0)))
    as (st' & Hv & Hp & Hout).
  { rewrite minres_init_n. lia. }
  { rewrite minres_init_n. lia. }
  rewrite minres_init_n in Hout.
  exists (minres_finish rhs st').
  rewrite minres_value, Hv, minres_passes, Hp.
  cbn [option_map minres_finish iters_out x_out].
  split; [reflexivity|].
  destruct Hout as [(Hn & Hall & Hlen & Hx) | (Hn & xs0 & xl & Hxs & Hall & Ht & Hx & Hcount)].
  - split; [lia|]. split; [lia|]. left.
    split; [exact Hn|]. split; [lia|].
    destruct (iterates (trace (minres_loop mat rhs precond (Z.to_nat iters) iters
                                 tol_error (value (minres_init mat rhs precond junk x0)))))
      as [|a l] eqn:Hxs.
    + left. cbn [length] in Hlen. lia.
    + right. rewrite Hx.
      apply (proj1 (Forall_forall _ _) Hall).
      apply last_in_nonempty. discriminate.
  - rewrite Hxs, length_app. cbn [length].
    split; [lia|]. split; [lia|]. right.
    split; [exact Hn|]. split; [lia|]. rewrite Hx. exact Ht.
Qed.

(** Three passes allowed on [[2]] x = (1): the first pass meets the
    threshold. *)
Lemma minres_iteration_count_witness :
  exists r,
    value (minres (Inputs.scalar1 2) [1]%float Inputs.identity (Inputs.memory 1 0 0)
                  [0]%float 3 Inputs.tol) = Some r
    /\ (Z.of_nat (passes (trace (minres (Inputs.scalar1 2) [1]%float Inputs.identity
                                        (Inputs.memory 1 0 0) [0]%float 3 Inputs.tol)))
        <= 3)%Z
    /\ (0 <= iters_out r <= 3)%Z
    /\ ((iters_out r = 3%Z
         /\ Z.of_nat (passes (trace (minres (Inputs.scalar1 2) [1]%float Inputs.identity
                                            (Inputs.memory 1 0 0) [0]%float 3 Inputs.tol)))
            = iters_out r
         /\ (3%Z = 0%Z
             \/ below_threshold (Inputs.scalar1 2) [1]%float Inputs.tol (x_out r) = false))
        \/ ((iters_out r < 3)%Z
            /\ Z.of_nat (passes (trace (minres (Inputs.scalar1 2) [1]%float Inputs.identity
                                               (Inputs.memory 1 0 0) [0]%float 3
                                               Inputs.tol)))
               = (iters_out r + 1)%Z
            /\ below_threshold (Inputs.scalar1 2) [1]%float Inputs.tol (x_out r) = true)).
Proof.
  apply (minres_iteration_count (Inputs.scalar1 2) [1]%float Inputs.identity
           (Inputs.memory 1 0 0) [0]%float 3 Inputs.tol).
  lia.
Defined.

(** C5, as the claim has it, fails.  On [[2]] x = (1) from [x = (0)] with a
    budget of three passes the kernel makes one pass, which takes [x] to
    [(0.5)] and meets the threshold, and writes back an iteration count of
    0: the count is not the number of iterations performed. *)
Lemma minres_count_misses_last_pass :
  value (minres (Inputs.scalar1 2) [1]%float Inputs.identity (Inputs.memory 1 0 0)
                [0]%float 3 Inputs.tol)
  = Some {| x_out := [0.5]%float; iters_out := 0; tol_error_out := 0%float |}
  /\ passes (trace (minres (Inputs.scalar1 2) [1]%float Inputs.identity
                           (Inputs.memory 1 0 0) [0]%float 3 Inputs.tol)) = 1%nat
  /\ ~ (exists r,
          value (minres (Inputs.scalar1 2) [1]%float Inputs.identity
                        (Inputs.memory 1 0 0) [0]%float 3 Inputs.tol) = Some r
          /\ iters_out r
             = Z.of_nat (passes (trace (minres (Inputs.scalar1 2) [1]%float
                                               Inputs.identity (Inputs.memory 1 0 0)
                                               [0]%float 3 Inputs.tol)))).
Proof.
  split; [vm_compute; reflexivity|]. split; [vm_compute; reflexivity|].
  intros (r & Hr & Hi).
  vm_compute in Hr. injection Hr as <-. vm_compute in Hi. discriminate Hi.
Qed.

(** ** The termination decision of a whole run *)

(** Every iterate is a vector the matrix was applied to. *)
Lemma iterates_applied (S : Type) (k : nat) (tr : list (Event S)) (u : VectorType S) :
  (length tr <= k)%nat -> In u (iterates tr) -> In (MatTimes u) tr.
Proof.
  revert tr. induction k as [|k IH]; intros tr Hlen Hin.
  - destruct tr; [contradiction | simpl in Hlen; lia].
  - assert (Htail : forall e t, (length (e :: t) <= Datatypes.S k)%nat ->
                      In u (iterates t) -> In (MatTimes u) (e :: t)).
    { intros e t Hl Hi. right. apply IH; [simpl in Hl; lia | exact Hi]. }
    destruct tr as [|e1 tr1]; [contradiction|].
    destruct e1; try (apply Htail; [exact Hlen | exact Hin]).
    destruct tr1 as [|e2 tr2]; [contradiction|].
    destruct e2; try (apply Htail; [exact Hlen | exact Hin]).
    destruct tr2 as [|e3 tr3]; [contradiction|].
    destruct e3; try (apply Htail; [exact Hlen | exact Hin]).
    destruct tr3 as [|e4 tr4]; [contradiction|].
    destruct e4; try (apply Htail; [exact Hlen | exact Hin]).
    destruct Hin as [<- | Hin].
    + do 3 right. left. reflexivity.
    + do 4 right. apply IH; [simpl in Hlen; lia | exact Hin].
Qed.

(** C6.  In a run with budget [iters >= 0], every iterate [u] (the [x] a
    pass has just updated) is tested by applying the matrix to it and
    comparing the squared norm of [mat*u - rhs] with
    [tol_error*tol_error*rhs.squaredNorm()].  The loop goes on while the
    iterates fail the test; either all of them fail, the loop ends at the
    budget and the last iterate is returned with [iters] as count, or the
    loop is left at the first iterate that passes, which is returned, with
    the number of iterates before it as count: [n] is not advanced for the
    pass that leaves.  [norm_rMR] is multiplied by [fabs(s)] in every pass,
    but what it holds takes no part: started from another value of the
    estimate, the run returns the same values and makes the same calls. *)
Theorem minres_termination_decision
  {S : Type} `{RealScalar S}
  (mat : MatrixType S) (rhs : VectorType S) (precond : Preconditioner S)
  (junk : Indeterminate S) (x0 : VectorType S) (iters : Z) (tol_error : S) :
  (0 <= iters)%Z ->
  let test := fun u =>
    s_lt (squaredNorm (vsub (times mat u) rhs))
         (s_mul (s_mul tol_error tol_error) (squaredNorm rhs)) in
  let run := minres mat rhs precond junk x0 iters tol_error in
  exists r,
    value run = Some r
    /\ Forall (fun u => In (MatTimes u) (trace run)) (iterates (trace run))
    /\ ((iters_out r = iters
         /\ Forall (fun u => test u = false) (iterates (trace run))
         /\ Z.of_nat (length (iterates (trace run))) = iters
         /\ x_out r = last (iterates (trace run)) x0)
        \/ ((iters_out r < iters)%Z
            /\ exists xs0 xl,
                 iterates (trace run) = xs0 ++ [xl]
                 /\ Forall (fun u => test u = false) xs0
                 /\ test xl = true
                 /\ x_out r = xl
                 /\ iters_out r = Z.of_nat (length xs0)))
    /\ (forall st : LoopState S,
          norm_rMR (fst (value (minres_body mat rhs precond tol_error st)))
          = s_mul (norm_rMR st)
                  (s_fabs (s (fst (value (minres_body mat rhs precond tol_error st))))))
    /\ forall q : S,
         minres mat rhs precond (with_u_beta q junk) x0 iters tol_error = run.
Proof.
  intros Hk test run.
  destruct (minres_loop_decision mat rhs precond tol_error (Z.to_nat iters) iters
              (value (minres_init mat rhs precond junk x0)))
    as (st' & Hv & _ & Hout).
  { rewrite minres_init_n. lia. }
  { rewrite minres_init_n. lia. }
  rewrite minres_init_n in Hout.
  exists (minres_finish rhs st'). unfold run.
  rewrite minres_value, Hv, iterates_minres.
  split; [reflexivity|]. split; [|split; [|split]].
  - apply Forall_forall. intros u Hu.
    apply (iterates_applied S (length (trace (minres mat rhs precond junk x0 iters
                                                tol_error)))); [lia|].
    rewrite iterates_minres. exact Hu.
  - cbn [minres_finish iters_out x_out].
    change (fun u => test u = false)
      with (fun u => below_threshold mat rhs tol_error u = false).
    change (test ?u) with (below_threshold mat rhs tol_error u).
    destruct Hout as [(Hn & Hall & Hlen & Hx) | (Hn & xs0 & xl & Hxs & Hall & Ht & Hx & Hc)].
    + left. repeat split; try assumption; lia.
    + right. split; [exact Hn|]. exists xs0, xl. repeat split; try assumption; lia.
  - intros st.
    destruct (minres_body_termination_test mat rhs precond tol_error st)
      as (_ & _ & _ & Hest & _).
    exact Hest.
  - intros q.
    rewrite (traced_eta _ (minres mat rhs precond (with_u_beta q junk) x0 iters tol_error)).
    rewrite (traced_eta _ (minres mat rhs precond junk x0 iters tol_error)).
    rewrite !minres_value, !minres_trace, !minres_init_trace.
    change (value (minres_init mat rhs precond (with_u_beta q junk) x0))
      with (with_estimate q q q (value (minres_init mat rhs precond junk x0))).
    destruct (minres_loop_estimate mat rhs precond (Z.to_nat iters) iters tol_error
                q q q (value (minres_init mat rhs precond junk x0)))
      as (b' & r' & r0' & ->).
    unfold value at 1, trace at 1. cbn [fst snd].
    destruct (value (minres_loop mat rhs precond (Z.to_nat iters) iters tol_error
                       (value (minres_init mat rhs precond junk x0)))); reflexivity.
Qed.

(** Three passes allowed on [[2]] x = (1): the first iterate passes. *)
Lemma minres_termination_decision_witness :
  let test := fun u =>
    s_lt (squaredNorm (vsub (times (Inputs.scalar1 2) u) [1]%float))
         (s_mul (s_mul Inputs.tol Inputs.tol) (squaredNorm [1]%float)) in
  let run := minres (Inputs.scalar1 2) [1]%float Inputs.identity (Inputs.memory 1 0 0)
                    [0]%float 3 Inputs.tol in
  exists r,
    value run = Some r
    /\ Forall (fun u => In (MatTimes u) (trace run)) (iterates (trace run))
    /\ ((iters_out r = 3%Z
         /\ Forall (fun u => test u = false) (iterates (trace run))
         /\ Z.of_nat (length (iterates (trace run))) = 3%Z
         /\ x_out r = last (iterates (trace run)) [0]%float)
        \/ ((iters_out r < 3)%Z
            /\ exists xs0 xl,
                 iterates (trace run) = xs0 ++ [xl]
                 /\ Forall (fun u => test u = false) xs0
                 /\ test xl = true
                 /\ x_out r = xl
                 /\ iters_out r = Z.of_nat (length xs0)))
    /\ (forall st : LoopState float,
          norm_rMR (fst (value (minres_body (Inputs.scalar1 2) [1]%float Inputs.identity
                                  Inputs.tol st)))
          = s_mul (norm_rMR st)
                  (s_fabs (s (fst (value (minres_body (Inputs.scalar1 2) [1]%float
                                            Inputs.identity Inputs.tol st))))))
    /\ forall q : float,
         minres (Inputs.scalar1 2) [1]%float Inputs.identity
                (with_u_beta q (Inputs.memory 1 0 0)) [0]%float 3 Inputs.tol = run.
Proof.
  apply (minres_termination_decision (Inputs.scalar1 2) [1]%float Inputs.identity
           (Inputs.memory 1 0 0) [0]%float 3 Inputs.tol).
  lia.
Defined.
